(** * finagentai: the resilient tool-orchestration layer

    A shallow embedding of
    - [src/kite/mcpclient/kite_mcp_client.py]  (RateLimiter, KiteMCPClient),
    - [src/kite/portbot/agent/master_agent.py] (MasterAgent),
    - [src/kite/portbot/chatbot.py]            (KiteChatbot),
    and the properties of the specification that concern them.

    Conventions.  Timestamps and durations are exact numbers, counted in
    ticks of the clock ([Z]); Python dictionaries with string keys are
    [gmap string _]; an exception caught by [except Exception] is a value of
    type [Py.exn]; a remote collaborator (the gateway, the router, the LLM) is
    an explicit oracle passed to the function that calls it. *)

From Stdlib Require Import ZArith Lia Ascii String.
From stdpp Require Import base decidable option list sorting gmap strings pretty fin_maps.

Open Scope Z_scope.

(* ===================================================================== *)
(** * Definitions                                                         *)
(* ===================================================================== *)

(** ** RateLimiter (kite_mcp_client.py, lines 19-54) *)
Module RateLimiter.

Record t := mk {
  max_requests : Z;
  time_window  : Z;
  requests     : list Z
}.

(** [__init__]: an empty list of request times. *)
Definition init (max_requests time_window : Z) : t :=
  mk max_requests time_window [].

Definition with_requests (rl : t) (reqs : list Z) : t :=
  mk (max_requests rl) (time_window rl) reqs.

(** [[req_time for req_time in self.requests if now - req_time < self.time_window]] *)
Definition in_window (rl : t) (now : Z) : list Z :=
  filter (λ req_time, now - req_time < time_window rl) (requests rl).

(** One pass through the body of [while True], under the lock. *)
Inductive check :=
| Granted (rl : t)
| MustWait (sleep_time : Z) (rl : t)
| IndexError (rl : t).

Definition acquire_once (rl : t) (now : Z) : check :=
  let reqs := in_window rl now in
  if bool_decide (Z.of_nat (length reqs) < max_requests rl)
  then Granted (with_requests rl (reqs ++ [now]))
  else match reqs with
       | oldest :: _ => MustWait (time_window rl - (now - oldest)) (with_requests rl reqs)
       | [] => IndexError (with_requests rl reqs)       (* self.requests[0] on [] *)
       end.

(** A wait that [acquire] performed: when, on which window, for how long. *)
Record wait := mk_wait {
  wait_at     : Z;
  wait_window : list Z;
  wait_slept  : Z
}.

Inductive outcome :=
| Acquired (granted_at : Z) (rl : t)
| Raised (at_time : Z) (rl : t)
| OutOfFuel.

(** [asyncio.sleep(s)] gives control back once [s] has elapsed, and the
    scheduler may add a delay of its own: [jitter] lists these delays, one
    per pass of the loop (none when the list is used up). *)
Definition after_sleep (now sleep_time : Z) (late : N) : Z :=
  now + (if bool_decide (0 < sleep_time) then sleep_time else 0) + Z.of_N late.

Fixpoint acquire_loop (fuel : nat) (rl : t) (now : Z) (jitter : list N)
  : outcome * list wait :=
  match fuel with
  | O => (OutOfFuel, [])
  | S fuel' =>
      match acquire_once rl now with
      | Granted rl' => (Acquired now rl', [])
      | IndexError rl' => (Raised now rl', [])
      | MustWait s rl' =>
          let now' := after_sleep now s (hd 0%N jitter) in
          let '(o, ws) := acquire_loop fuel' rl' now' (tl jitter) in
          (o, mk_wait now (requests rl') s :: ws)
      end
  end.

(** [acquire]: every wait drops at least the oldest request from the
    window, so one more pass than there are recorded requests is enough
    (lemma [acquire_terminates]). *)
Definition acquire (rl : t) (now : Z) (jitter : list N) : outcome * list wait :=
  acquire_loop (S (length (requests rl))) rl now jitter.

(** A caller: idle for [gap] ticks, then [await limiter.acquire()]. *)
Record arrival := mk_arrival {
  gap    : N;
  jitter : list N
}.

Record served := mk_served {
  result : outcome;
  waits  : list wait
}.

Definition state_after (o : outcome) (rl : t) (now : Z) : t * Z :=
  match o with
  | Acquired at_time rl' => (rl', at_time)
  | Raised at_time rl' => (rl', at_time)
  | OutOfFuel => (rl, now)
  end.

(** A sequence of [acquire] calls on one limiter. *)
Fixpoint run (rl : t) (now : Z) (calls : list arrival) : list served :=
  match calls with
  | [] => []
  | c :: calls' =>
      let start := now + Z.of_N (gap c) in
      let '(o, ws) := acquire rl start (jitter c) in
      let '(rl', now') := state_after o rl start in
      mk_served o ws :: run rl' now' calls'
  end.

(** A sequence of admission checks, by whatever tasks hold the lock in
    turn: each check is one pass of the loop, [gap] ticks after the one
    before; the answer is the list of the times that were granted. *)
Fixpoint admission_checks (rl : t) (now : Z) (gaps : list N) : list Z :=
  match gaps with
  | [] => []
  | gap :: gaps' =>
      let now' := now + Z.of_N gap in
      match acquire_once rl now' with
      | Granted rl' => now' :: admission_checks rl' now' gaps'
      | MustWait _ rl' => admission_checks rl' now' gaps'
      | IndexError rl' => admission_checks rl' now' gaps'
      end
  end.

Definition grant_time (s : served) : list Z :=
  match result s with
  | Acquired at_time _ => [at_time]
  | _ => []
  end.

Definition grant_times (log : list served) : list Z := log ≫= grant_time.

Definition all_waits (log : list served) : list wait := log ≫= waits.

Definition was_granted (s : served) : bool :=
  match result s with Acquired _ _ => true | _ => false end.

(** The grants that fall in the window of length [w] that starts at [t]. *)
Definition granted_within (t w : Z) (grants : list Z) : list Z :=
  filter (λ g, t ≤ g < t + w) grants.

(** The oldest request of a window: its least time stamp. *)
Definition oldest (window : list Z) : option Z :=
  match window with
  | [] => None
  | r :: rs => Some (foldr Z.min r rs)
  end.

(** The invariant of a limiter with [limit] requests per [window], where
    [grants] is the history of the time stamps granted so far: the requests
    it still holds are the recent part of the history, in the order they
    were granted, and no window of the history is over the limit. *)
Record inv (limit window : Z) (grants : list Z) (rl : t) (now : Z) : Prop := mk_inv {
  inv_limit  : max_requests rl = limit;
  inv_window : time_window rl = window;
  inv_recent : ∀ now', now ≤ now' →
                 filter (λ r, now' - r < window) (requests rl)
                 = filter (λ r, now' - r < window) grants;
  inv_sorted : StronglySorted Z.le (requests rl);
  inv_past   : Forall (λ r, r ≤ now) (requests rl);
  inv_bound  : ∀ t, Z.of_nat (length (granted_within t window grants)) ≤ limit
}.

(** A wait of the right length: [window - (now - oldest)], and positive. *)
Definition wait_ok (window : Z) (w : wait) : Prop :=
  0 < wait_slept w ∧
  ∃ first, oldest (wait_window w) = Some first ∧
           wait_slept w = window - (wait_at w - first).

End RateLimiter.

(** ** Python values, strings and exceptions *)
Module Py.

(** The values a tool argument or a JSON payload holds. *)
Inductive value :=
| VNone
| VBool (b : bool)
| VInt (n : Z)
| VStr (s : string).

(** [**kwargs], and the [arguments] of a router selection. *)
Abbreviation kwargs := (gmap string value).

(** [str.isspace] on the ASCII range: tab to carriage return, the four
    separators and the space. *)
Definition is_space (c : ascii) : bool :=
  let n := N_of_ascii c in
  ((9 <=? n)%N && (n <=? 13)%N) || ((28 <=? n)%N && (n <=? 32)%N).

Definition lower_char (c : ascii) : ascii :=
  let n := N_of_ascii c in
  if ((65 <=? n)%N && (n <=? 90)%N) then ascii_of_N (n + 32) else c.

(** [s.lower()] *)
Fixpoint lower (s : string) : string :=
  match s with
  | EmptyString => EmptyString
  | String c s' => String (lower_char c) (lower s')
  end.

(** [sub in s] *)
Fixpoint contains (sub s : string) : bool :=
  String.prefix sub s ||
  match s with
  | EmptyString => false
  | String _ s' => contains sub s'
  end.

Fixpoint lstrip (s : string) : string :=
  match s with
  | EmptyString => EmptyString
  | String c s' => if is_space c then lstrip s' else s
  end.

Fixpoint rstrip (s : string) : string :=
  match s with
  | EmptyString => EmptyString
  | String c s' =>
      match rstrip s' with
      | EmptyString => if is_space c then EmptyString else String c EmptyString
      | rest => String c rest
      end
  end.

(** [s.strip()] *)
Definition strip (s : string) : string := rstrip (lstrip s).

(** [s.split()]: the maximal runs of characters that are not spaces. *)
Fixpoint split_go (cur : option string) (s : string) : list string :=
  match s with
  | EmptyString => option_list (String.rev <$> cur)
  | String c s' =>
      if is_space c
      then option_list (String.rev <$> cur) ++ split_go None s'
      else split_go (Some (String c (default EmptyString cur))) s'
  end.

Definition split (s : string) : list string := split_go None s.

(** An exception that [except Exception] catches: the name of its class,
    [str(e)], and whether it is an instance of [anyio.ClosedResourceError]. *)
Record exn := mk_exn {
  exn_type : string;
  exn_text : string;
  exn_closed_resource : bool
}.

End Py.

(** ** Effects: a state and the exceptions of Python

    A computation runs on a state and ends with a value or with an
    exception; what it did to the state stays done in both cases. *)
Module Eff.
Import Py.

Definition M (S A : Type) : Type := S → (exn + A) * S.

Definition ret {S A} (a : A) : M S A := λ s, (inr a, s).

Definition bind {S A B} (m : M S A) (k : A → M S B) : M S B :=
  λ s, match m s with
       | (inl e, s') => (inl e, s')
       | (inr a, s') => k a s'
       end.

Definition raise {S A} (e : exn) : M S A := λ s, (inl e, s).

(** [try: m except Exception as e: handler e] *)
Definition try_except {S A} (m : M S A) (handler : exn → M S A) : M S A :=
  λ s, match m s with
       | (inl e, s') => handler e s'
       | (inr a, s') => (inr a, s')
       end.

Definition get {S} : M S S := λ s, (inr s, s).
Definition put {S} (s : S) : M S unit := λ _, (inr tt, s).

Notation "'let*' x ':=' m 'in' k" := (bind m (λ x, k))
  (at level 10, x name, m at level 100, k at level 200, only parsing).
Notation "m ';;' k" := (bind m (λ _, k))
  (at level 100, k at level 200, right associativity, only parsing).

End Eff.

(** ** KiteMCPClient (kite_mcp_client.py, lines 56-275) *)
Module KiteMCPClient.
Import Py Eff.

(** What a tool call returns: the text of its content blocks. *)
Record response := mk_response { text_chunks : list string }.

(** The session file: JSON that holds a header map, or something
    [json.load] fails on. *)
Inductive file :=
| Json (saved_headers : gmap string string)
| Garbage.

Record t := mk {
  headers       : gmap string string;
  has_transport : bool;               (* self.transport is not None *)
  has_client    : bool;               (* self._client is not None *)
  rate_limiter  : RateLimiter.t;
  max_retries   : Z;
  retry_delay   : Z
}.

Inductive event :=
| Connected                               (* self._client.__aenter__() *)
| Closed                                  (* self._client.__aexit__(..) *)
| ForceReconnect
| Paused (d : Z)                          (* the sleep of force_reconnect *)
| Throttled (d : Z)                       (* a sleep of RateLimiter.acquire *)
| Backoff (d : Z)                         (* the sleep between two attempts *)
| CallTool (tool_name : string) (args : kwargs).

(** What is outside the client: the clock (in milliseconds), the session
    file, and the history of what the client did. *)
Record world := mk_world {
  clock      : Z;
  disk       : option file;
  trace      : list event;
  connects   : nat;                       (* connections opened so far *)
  tool_calls : nat                        (* tools invoked so far *)
}.

(** The gateway decides how the n-th connection and the n-th tool
    invocation end. *)
Record gateway := mk_gateway {
  on_connect   : nat → option exn;
  on_call_tool : nat → string → kwargs → exn + response
}.

Definition user_agent : gmap string string :=
  {[ "User-Agent" := "KiteInfi-Backend/1.0" ]}.

(** *** Session persistence: plain functions of the client and the disk *)

Definition set_headers (c : t) (h : gmap string string) : t :=
  mk h (has_transport c) (has_client c) (rate_limiter c) (max_retries c) (retry_delay c).

Definition set_connection (c : t) (transport client : bool) : t :=
  mk (headers c) transport client (rate_limiter c) (max_retries c) (retry_delay c).

Definition set_rate_limiter (c : t) (rl : RateLimiter.t) : t :=
  mk (headers c) (has_transport c) (has_client c) rl (max_retries c) (retry_delay c).

(** [save_session]: nothing is written for an empty header map. *)
Definition save_session (c : t) (d : option file) : option file :=
  if decide (headers c = ∅) then d else Some (Json (headers c)).

(** [restore_session]: [self.headers.update(saved_headers)]; an exception
    of [json.load] is caught and the answer is [False]. *)
Definition restore_session (c : t) (d : option file) : t * bool :=
  match d with
  | Some (Json saved_headers) =>
      if decide (saved_headers = ∅) then (c, false)
      else (set_headers c (saved_headers ∪ headers c), true)
  | Some Garbage => (c, false)
  | None => (c, false)
  end.

(** [clear_session]: memory, then the connection, then the disk. *)
Definition clear_session (c : t) (d : option file) : t * option file :=
  let c1 := set_headers c user_agent in
  let c2 := set_connection c1 false false in
  (c2, match d with Some _ => None | None => None end).

(** *** Effects: the state is the client and the world *)

Abbreviation M := (Eff.M (t * world)).

Definition get_client : M t := λ s, (inr s.1, s).
Definition get_world : M world := λ s, (inr s.2, s).
Definition put_client (c : t) : M unit := λ s, (inr tt, (c, s.2)).
Definition put_world (w : world) : M unit := λ s, (inr tt, (s.1, w)).

Definition log (ev : event) : M unit :=
  let* w := get_world in
  put_world (mk_world (clock w) (disk w) (trace w ++ [ev]) (connects w) (tool_calls w)).

(** [await asyncio.sleep(d)]: the clock moves on when [d] is positive. *)
Definition advance (d : Z) : M unit :=
  let* w := get_world in
  put_world (mk_world (clock w + Z.max 0 d) (disk w) (trace w) (connects w) (tool_calls w)).

Definition restore_sessionM : M bool :=
  let* c := get_client in
  let* w := get_world in
  let '(c', found) := restore_session c (disk w) in
  put_client c';; ret found.

(** [self._client.__aenter__()]: the gateway accepts or refuses. *)
Definition client_aenter (gw : gateway) : M unit :=
  let* w := get_world in
  put_world (mk_world (clock w) (disk w) (trace w ++ [Connected])
                      (S (connects w)) (tool_calls w));;
  match on_connect gw (connects w) with
  | Some e => raise e
  | None => ret tt
  end.

(** [connect]: the client object is in place before it is entered, so it
    stays in place when entering fails. *)
Definition connect (gw : gateway) : M unit :=
  let* c := get_client in
  if has_client c then ret tt
  else
    restore_sessionM;;
    let* c := get_client in
    put_client (set_connection c true true);;
    client_aenter gw.

(** 0.1 s *)
Definition reconnect_pause : Z := 100.

(** [force_reconnect]: close what is there (errors suppressed), forget
    client and transport, pause, connect; an error is raised again. *)
Definition force_reconnect (gw : gateway) : M unit :=
  log ForceReconnect;;
  try_except
    (let* c := get_client in
     (if has_client c then log Closed else ret tt);;
     let* c := get_client in
     put_client (set_connection c false false);;
     log (Paused reconnect_pause);;
     advance reconnect_pause;;
     connect gw)
    (λ e, raise e).

Definition index_error : exn :=
  mk_exn "IndexError" "list index out of range" false.

(** [await self.rate_limiter.acquire()] at the time of the clock; every
    wait of the limiter is a sleep. *)
Definition acquire : M unit :=
  let* c := get_client in
  let* w := get_world in
  let '(o, ws) := RateLimiter.acquire (rate_limiter c) (clock w) [] in
  let slept := (λ ws : list RateLimiter.wait, Throttled ∘ RateLimiter.wait_slept <$> ws) in
  match o with
  | RateLimiter.Acquired at_time rl =>
      put_client (set_rate_limiter c rl);;
      put_world (mk_world at_time (disk w) (trace w ++ slept ws) (connects w) (tool_calls w))
  | RateLimiter.Raised at_time rl =>
      put_client (set_rate_limiter c rl);;
      put_world (mk_world at_time (disk w) (trace w ++ slept ws) (connects w) (tool_calls w));;
      raise index_error
  | RateLimiter.OutOfFuel => raise index_error      (* never: [acquire_terminates] *)
  end.

(** [await self._client.call_tool(tool_name, args or {})] *)
Definition call_tool (gw : gateway) (tool_name : string) (args : kwargs) : M response :=
  let* w := get_world in
  put_world (mk_world (clock w) (disk w) (trace w ++ [CallTool tool_name args])
                      (connects w) (S (tool_calls w)));;
  match on_call_tool gw (tool_calls w) tool_name args with
  | inl e => raise e
  | inr r => ret r
  end.

(** *** The three kinds of failure of [call] *)

Inductive failure := RateLimited | TransportBroken | OtherError.

Definition is_rate_limit (error_msg : string) : bool :=
  contains "429" error_msg || contains "too many requests" error_msg.

Definition connection_words : list string :=
  ["broken"; "connection"; "closed"; "resource"; "anyio"].

Definition connection_types : list string :=
  ["ClosedResourceError"; "RemoteProtocolError"; "EndOfStream"; "ConnectionResetError"].

Definition is_connection_error (e : exn) (error_msg : string) : bool :=
  existsb (λ word, contains word error_msg) connection_words
  || existsb (String.eqb (exn_type e)) connection_types
  || exn_closed_resource e.

Definition classify (e : exn) : failure :=
  let error_msg := lower (exn_text e) in
  if is_rate_limit error_msg then RateLimited
  else if is_connection_error e error_msg then TransportBroken
  else OtherError.

Definition rate_limit_exceeded (max_retries : Z) : exn :=
  mk_exn "ToolError"
         ("Rate limit exceeded after " +:+ pretty max_retries
          +:+ " retries. Please try again later.")
         false.

(** *** [call]

    [attempts] passes of [for attempt in range(self.max_retries + 1)] are
    left; a pass returns, raises, or sleeps and goes on ([continue]).  The
    argument [silent] of the source only turns the messages off. *)
Fixpoint call_from (gw : gateway) (tool_name : string) (args : kwargs)
    (attempts : nat) (attempt : Z) (last_error : option exn) : M (option response) :=
  match attempts with
  | O =>
      match last_error with
      | Some e => raise e
      | None => ret None
      end
  | S attempts' =>
      try_except
        (let* c := get_client in
         (if has_client c then ret tt else connect gw);;
         acquire;;
         let* result := call_tool gw tool_name args in
         ret (Some result))
        (λ e,
           let* c := get_client in
           match classify e with
           | RateLimited =>
               if bool_decide (attempt < max_retries c) then
                 let wait_time := retry_delay c * 2 ^ attempt in
                 log (Backoff wait_time);;
                 advance wait_time;;
                 call_from gw tool_name args attempts' (attempt + 1) (Some e)
               else raise (rate_limit_exceeded (max_retries c))
           | TransportBroken =>
               if bool_decide (attempt < max_retries c) then
                 let wait_time := retry_delay c * 2 ^ attempt in
                 try_except (force_reconnect gw) (λ reconnect_err, ret tt);;
                 log (Backoff wait_time);;
                 advance wait_time;;
                 call_from gw tool_name args attempts' (attempt + 1) (Some e)
               else raise e
           | OtherError => raise e
           end)
  end.

Definition call (gw : gateway) (tool_name : string) (args : kwargs) : M (option response) :=
  let* c := get_client in
  call_from gw tool_name args (Z.to_nat (max_retries c + 1)) 0 None.

(** *** Reading a trace *)

Definition backoffs (evs : list event) : list Z :=
  evs ≫= λ ev, match ev with Backoff d => [d] | _ => [] end.

Definition is_force_reconnect (ev : event) : bool :=
  match ev with ForceReconnect => true | _ => false end.

Definition is_call_tool (ev : event) : bool :=
  match ev with CallTool _ _ => true | _ => false end.

(** The attempts and the forced reconnections of a trace, in order. *)
Definition attempts_and_reconnects (evs : list event) : list event :=
  List.filter (λ ev, is_call_tool ev || is_force_reconnect ev) evs.

Definition count (p : event → bool) (evs : list event) : nat :=
  length (List.filter p evs).

(** A first attempt, and [retries] times a forced reconnection and an attempt. *)
Fixpoint retried_after_reconnect (tool_name : string) (args : kwargs) (retries : nat)
  : list event :=
  match retries with
  | O => [CallTool tool_name args]
  | S n => CallTool tool_name args :: ForceReconnect
           :: retried_after_reconnect tool_name args n
  end.

Fixpoint strictly_increasing (l : list Z) : Prop :=
  match l with
  | x :: (y :: _) as l' => x < y ∧ strictly_increasing l'
  | _ => True
  end.

(** What [call] leaves alone in the client. *)
Definition steady (c c' : t) : Prop :=
  max_retries c' = max_retries c ∧
  retry_delay c' = retry_delay c ∧
  RateLimiter.max_requests (rate_limiter c') = RateLimiter.max_requests (rate_limiter c).

(** Events that are neither attempts, reconnections nor backoffs. *)
Definition quiet (evs : list event) : Prop :=
  backoffs evs = [] ∧ attempts_and_reconnects evs = [] ∧
  count is_call_tool evs = 0%nat ∧ count is_force_reconnect evs = 0%nat.

(** The world after the backoff of an attempt. *)
Definition backed_off (c : t) (w : world) (attempt : Z) (evs : list event) : world :=
  mk_world (clock w + Z.max 0 (retry_delay c * 2 ^ attempt)) (disk w)
           (trace w ++ evs ++ [Backoff (retry_delay c * 2 ^ attempt)])
           (connects w) (tool_calls w).

(** The delays of the retries that start at [attempt]. *)
Definition backoff_schedule (delay attempt : Z) (retries : nat) : list Z :=
  (λ k : nat, delay * 2 ^ (attempt + Z.of_nat k)) <$> seq 0 retries.

(** *** [close], [validate_session] *)

(** [close]: the session is saved first; the reader task is cancelled and
    the client left, errors suppressed; client and transport are
    forgotten. *)
Definition close : M unit :=
  let* c := get_client in
  let* w := get_world in
  put_world (mk_world (clock w) (save_session c (disk w)) (trace w)
                      (connects w) (tool_calls w));;
  (if has_client c then log Closed else ret tt);;
  let* c := get_client in
  put_client (set_connection c false false).

Definition newline : string := String (ascii_of_nat 10) EmptyString.

Definition nonempty (s : string) : bool :=
  match s with EmptyString => false | _ => true end.

(** [_collect_text_chunks]: the texts that are not empty, one per line,
    stripped; the empty string for a result without content (or [None]). *)
Definition _collect_text_chunks (result : option response) : string :=
  match result with
  | None => EmptyString
  | Some r => strip (String.concat newline (List.filter nonempty (text_chunks r)))
  end.

(** [validate_session] *)
Definition validate_session (gw : gateway) : M bool :=
  try_except
    (let* res := call gw "get_profile" ∅ in
     let raw_text := _collect_text_chunks res in
     if contains "please log in" (lower raw_text) then ret false else ret true)
    (λ _, ret false).

End KiteMCPClient.

(** ** GroqBalancer (utils/llm_balancer.py) *)
Module GroqBalancer.
Import Py Eff.

Record t := mk {
  _keys  : list string;
  _index : nat
}.

(** The balancer once the keys are loaded. *)
Definition init (keys : list string) : t := mk keys 0.

Definition index_error : exn :=
  mk_exn "IndexError" "list index out of range" false.

(** [get_next_key]: the key at the index, and the index moves on, round
    the list. *)
Definition get_next_key : Eff.M t (option string) :=
  let* b := get in
  match _keys b with
  | [] => ret None
  | _ =>
      match _keys b !! _index b with
      | None => raise index_error
      | Some key =>
          put (mk (_keys b) ((_index b + 1) mod length (_keys b)));;
          ret (Some key)
      end
  end.

(** [n] calls in a row: what they answer. *)
Fixpoint next_keys (n : nat) (b : t) : list (exn + option string) * t :=
  match n with
  | O => ([], b)
  | S n' =>
      let '(answer, b') := get_next_key b in
      let '(answers, b'') := next_keys n' b' in
      (answer :: answers, b'')
  end.

(** [key_count] *)
Definition key_count (b : t) : nat := length (_keys b).

End GroqBalancer.

(** ** MasterAgent (master_agent.py) *)
Module MasterAgent.
Import Py Eff.

(** An entry of [agent.tools]. *)
Record tool_spec := mk_tool_spec {
  name        : string;
  description : string;
  parameters  : gmap string string          (* parameter name -> type hint *)
}.

(** An entry of the catalog. *)
Record item := mk_item {
  item_agent       : string;
  item_tool        : string;
  item_description : string;
  item_parameters  : gmap string string
}.

(** A tool result: a dict with [status] and, when present, [message],
    [summary] and [data]. *)
Record result := mk_result {
  status  : option string;
  message : option string;
  summary : option value;
  data    : option value
}.

(** A step of a plan, as [route_query] builds it. *)
Record step := mk_step {
  agent     : string;
  tool      : string;
  arguments : kwargs
}.

(** What the router selects: a dict that may hold [agent], [tool] and
    [arguments], or [plan], a list of dicts with [agent], [tool] and maybe
    [arguments]. *)
Record plan_step := mk_plan_step {
  ps_agent     : string;
  ps_tool      : string;
  ps_arguments : option kwargs
}.

Record selection := mk_selection {
  sel_agent     : option string;
  sel_tool      : option string;
  sel_arguments : option kwargs;
  sel_plan      : option (list plan_step)
}.

(** What [route_query] returns. *)
Record routed := mk_routed {
  routed_status  : option string;
  routed_message : option string;
  routed_data    : option (list step * list result)
}.

(** A call of [agent.run(tool_name=..., **kwargs)]. *)
Record invocation := mk_invocation {
  inv_agent : string;
  inv_tool  : string;
  inv_args  : kwargs
}.

(** The agents are outside the model: how a [run] ends may depend on all
    the runs before it; so is the router. *)
Record collaborators := mk_collaborators {
  run   : list invocation → invocation → exn + result;
  route : string → exn + option selection
}.

Record t := mk {
  initialized    : bool;
  agents         : gmap string (list tool_spec);     (* agent name -> agent.tools *)
  catalog        : list item;
  router_enabled : bool                         (* self._router is not None *)
}.

(** The state of a computation: the runs of agents so far. *)
Abbreviation M := (Eff.M (list invocation)).

(** *** Truth values of Python *)

Definition truthy (s : option string) : bool :=
  match s with
  | Some (String _ _) => true
  | _ => false
  end.

(** [x or {}] *)
Definition or_empty (args : option kwargs) : kwargs := default ∅ args.

(** *** The catalog *)

Definition item_le (x y : item) : Prop :=
  item_agent x ≠ item_agent y ∧ String.le (item_agent x) (item_agent y)
  ∨ item_agent x = item_agent y ∧ String.le (item_tool x) (item_tool y).

#[export] Instance item_le_dec x y : Decision (item_le x y).
Proof. unfold item_le. apply _. Defined.

(** [_build_catalog]: every tool of every agent, sorted by (agent, tool). *)
Definition _build_catalog (agents : gmap string (list tool_spec)) : list item :=
  merge_sort item_le
    (map_to_list agents ≫= λ '(agent_name, tools),
       (λ t, mk_item agent_name (name t) (description t) (parameters t)) <$> tools).

(** [_has_tool] *)
Definition _has_tool (tools : list tool_spec) (tool_name : string) : bool :=
  existsb (λ t, String.eqb (name t) tool_name) tools.

(** *** [_is_valid_selection]

    The loop that removes the unknown arguments: [for k in
    list(args.keys()): if k not in params: args.pop(k, None)]. *)
Definition prune (params : gmap string string) (args : kwargs) : kwargs :=
  foldl (λ args k, if decide (k ∈ dom params) then args else delete k args)
        args (map_to_list args).*1.

Definition find_item (catalog : list item) (agent tool : string) : option item :=
  List.find (λ it, String.eqb (item_agent it) agent && String.eqb (item_tool it) tool)
            catalog.

(** The answer, and the selection as the function leaves it. *)
Definition _is_valid_selection (catalog : list item) (sel : step) : bool * step :=
  if negb (truthy (Some (agent sel))) || negb (truthy (Some (tool sel)))
  then (false, sel)
  else match find_item catalog (agent sel) (tool sel) with
       | Some it =>
           (true, mk_step (agent sel) (tool sel)
                          (prune (item_parameters it) (arguments sel)))
       | None => (false, sel)
       end.

(** *** [_compact_result] *)
Definition _compact_result (res : result) : result :=
  mk_result (status res) (message res) (summary res)
            (match summary res with Some _ => None | None => data res end).

Definition error (msg : string) : result :=
  mk_result (Some "error") (Some msg) None None.

(** *** [execute] *)

(** [await agent.run(tool_name=tool_name, **kwargs)] *)
Definition agent_run (co : collaborators) (i : invocation) : M result :=
  let* history := get in
  put (history ++ [i]);;
  match run co history i with
  | inl e => raise e
  | inr res => ret res
  end.

Definition execute (m : t) (co : collaborators)
    (agent_name tool_name : string) (kw : kwargs) : M result :=
  if negb (initialized m)
  then ret (error "MasterAgent not initialized. Use 'async with MasterAgent(...)'.")
  else match agents m !! agent_name with
       | None => ret (error ("Agent '" +:+ agent_name +:+ "' not found"))
       | Some tools =>
           if negb (_has_tool tools tool_name)
           then ret (error ("Tool '" +:+ tool_name +:+ "' not found on '"
                            +:+ agent_name +:+ "'"))
           else
             try_except
               (agent_run co (mk_invocation agent_name tool_name kw))
               (λ e, ret (error (exn_text e)))
       end.

(** *** [route_query] *)

(** The loop over [selection["plan"]]: a step is checked, then executed,
    then the next one is checked. *)
Fixpoint run_plan (m : t) (co : collaborators) (plan : list plan_step)
    (steps : list step) (results : list result) : M routed :=
  match plan with
  | [] => ret (mk_routed (Some "success") None (Some (steps, results)))
  | s :: plan' =>
      let step := mk_step (ps_agent s) (ps_tool s) (or_empty (ps_arguments s)) in
      let '(valid, step) := _is_valid_selection (catalog m) step in
      if negb valid
      then ret (mk_routed (Some "error") (Some "Router produced invalid step.") None)
      else
        let* r := execute m co (agent step) (tool step) (arguments step) in
        run_plan m co plan' (steps ++ [step]) (results ++ [_compact_result r])
  end.

Definition no_mapping : string :=
  "I couldn't map that to a portfolio tool. Try: 'show holdings', 'check margins', 'show orders', 'account details', or 'show positions'.".

Definition route_plan (m : t) (co : collaborators) (selection : option selection) : M routed :=
  match selection ≫= sel_plan with
  | Some plan => run_plan m co plan [] []
  | None => ret (mk_routed (Some "error") (Some no_mapping) None)
  end.

Definition route_query (m : t) (co : collaborators) (user_query : string) : M routed :=
  if negb (router_enabled m)
  then ret (mk_routed (Some "error") (Some "Router disabled") None)
  else
    match route co user_query with
    | inl e => raise e
    | inr selection =>
        match selection with
        | Some sel =>
            if truthy (sel_agent sel) && truthy (sel_tool sel)
            then
              let step := mk_step (default EmptyString (sel_agent sel))
                                  (default EmptyString (sel_tool sel))
                                  (or_empty (sel_arguments sel)) in
              let '(valid, step) := _is_valid_selection (catalog m) step in
              if valid
              then
                let* res := execute m co (agent step) (tool step) (arguments step) in
                ret (mk_routed (status res) (message res)
                               (Some ([step], [_compact_result res])))
              else route_plan m co selection
            else route_plan m co selection
        | None => route_plan m co selection
        end
    end.

(** [(agent, tool)] is a pair of the catalog. *)
Definition in_catalog (catalog : list item) (agent tool : string) : Prop :=
  ∃ it, it ∈ catalog ∧ item_agent it = agent ∧ item_tool it = tool.

(** A plan with an unknown step is rejected in full: [route_query]
    answers with an error and no agent has run. *)
Definition rejects_in_full (m : t) (co : collaborators) (user_query : string) : Prop :=
  ∀ plan history,
    route co user_query = inr (Some (mk_selection None None None (Some plan))) →
    Exists (λ s, ¬ in_catalog (catalog m) (ps_agent s) (ps_tool s)) plan →
    ∃ res, route_query m co user_query history = (inr res, history) ∧
           routed_status res = Some "error".

(** The step that [route_query] builds from an entry of the plan, and
    the step as [_is_valid_selection] leaves it. *)
Definition step_of (s : plan_step) : step :=
  mk_step (ps_agent s) (ps_tool s) (or_empty (ps_arguments s)).

Definition validated (catalog : list item) (s : plan_step) : step :=
  (_is_valid_selection catalog (step_of s)).2.

(** The runs of a list of steps, in order. *)
Definition runs_of (steps : list step) : list invocation :=
  (λ s, mk_invocation (agent s) (tool s) (arguments s)) <$> steps.

End MasterAgent.

(** ** KiteChatbot (chatbot.py) *)
Module KiteChatbot.
Import Py Eff.

(** A turn of the conversation: [{role: ..., content: ...}]. *)
Record turn := mk_turn {
  role    : string;
  content : string
}.

(** *** Slices of Python *)

(** [l[start:]] *)
Definition slice_from {A} (start : Z) (l : list A) : list A :=
  let len := Z.of_nat (length l) in
  let first := if bool_decide (start < 0) then Z.max 0 (len + start) else Z.min start len in
  drop (Z.to_nat first) l.

(** [l[-n:]] *)
Definition last_turns {A} (n : Z) (l : list A) : list A := slice_from (- n) l.

(** *** Memory *)

(** [_maybe_compress_memory(max_turns)] *)
Definition _maybe_compress_memory (memory : list turn) (max_turns : Z) : list turn :=
  if bool_decide (max_turns < Z.of_nat (length memory))
  then last_turns max_turns memory
  else memory.

(** [_remember]: append, then compress with the default bound, 20. *)
Definition _remember (memory : list turn) (role content : string) : list turn :=
  _maybe_compress_memory (memory ++ [mk_turn role content]) 20.

Definition remember_all (memory : list turn) (turns : list turn) : list turn :=
  foldl (λ memory t, _remember memory (role t) (content t)) memory turns.

(** *** Classification *)

Inductive query_type := Acknowledgment | OutOfScope | Financial.

Definition greetings : list string :=
  ["hi"; "hello"; "hey"; "thanks"; "thank you"; "thanks!"; "ok"; "okay"; "nice";
   "good"; "great"; "thanks for the info"; "thanks buddy"; "got it"].

Definition out_of_scope_keywords : list string :=
  ["weather"; "politics"; "joke"; "recipe"; "song"; "movie"; "sports"; "cricket"].

Definition _classify_query (query : string) : query_type :=
  let q := strip (lower query) in
  let words := split q in
  if existsb (String.eqb q) greetings
     || (bool_decide (length words ≤ 3)%nat && existsb (λ g, contains g q) greetings)
  then Acknowledgment
  else if existsb (λ kw, contains kw q) out_of_scope_keywords then OutOfScope
  else Financial.

Definition needs_routing (c : query_type) : bool :=
  match c with Financial => true | _ => false end.

(** *** The collaborators: the LLM and the dispatcher *)

(** What is asked from the streaming LLM. *)
Inductive request :=
| Reply (to : query_type) (recent : list turn)       (* system message + memory[-4:] *)
| Narration (user_input : string) (routed : MasterAgent.routed) (recent : list turn)
| Fallback (recent : list turn).                     (* system message + memory[-6:] *)

Inductive call :=
| Classified (query : string)
| RewriteLLM (history : list turn) (query : string)
| Routed (search_query : string)
| StreamLLM (r : request).

Record collaborators := mk_collaborators {
  (** the completion of the rewrite prompt, or the exception of the call *)
  rewrite_llm : list turn → string → exn + string;
  (** the tokens of a stream, and the exception that ends it, if any *)
  _stream_llm  : request → list string * option exn;
  (** [self.master.route_query] *)
  route_query : string → exn + MasterAgent.routed;
  (** [str(...)] of the data of a routed result *)
  str_data    : MasterAgent.routed → string
}.

(** A token that [chat_stream] has yielded, and the memory at that point:
    if the consumer stops there, this memory is what stays. *)
Record suspension := mk_suspension {
  token       : string;
  memory_then : list turn
}.

Record state := mk_state {
  memory  : list turn;
  calls   : list call;
  yielded : list suspension
}.

Record t := mk {
  narrate : bool
}.

Abbreviation M := (Eff.M state).

Definition called (c : call) : M unit :=
  let* s := get in put (mk_state (memory s) (calls s ++ [c]) (yielded s)).

Definition yield (tok : string) : M unit :=
  let* s := get in
  put (mk_state (memory s) (calls s) (yielded s ++ [mk_suspension tok (memory s)])).

Definition remember (role content : string) : M unit :=
  let* s := get in
  put (mk_state (_remember (memory s) role content) (calls s) (yielded s)).

Definition get_memory : M (list turn) :=
  let* s := get in ret (memory s).

(** *** [_rewrite_query] *)

Definition follow_up_indicators : list string :=
  ["it"; "its"; "they"; "them"; "this"; "that"; "those"; "above"; "previous";
   "analyze"; "why"; "how"; "what about"].

Definition quote : ascii := ascii_of_nat 34.

Fixpoint lstrip_char (c : ascii) (s : string) : string :=
  match s with
  | String c' s' => if Ascii.eqb c c' then lstrip_char c s' else s
  | EmptyString => EmptyString
  end.

(** [s.strip(c)] *)
Definition strip_char (c : ascii) (s : string) : string :=
  String.rev (lstrip_char c (String.rev (lstrip_char c s))).

(** [m['content'][:200]] for the last four turns. *)
Definition history_of (memory : list turn) : list turn :=
  (λ m, mk_turn (role m) (String.substring 0 200 (content m))) <$> last_turns 4 memory.

Definition _rewrite_query (co : collaborators) (query : string) : M string :=
  let* memory := get_memory in
  match memory with
  | [] => ret query
  | _ =>
      if negb (existsb (λ word, contains word (lower query)) follow_up_indicators)
         && bool_decide (4 < length (split query))%nat
      then ret query
      else
        called (RewriteLLM (history_of memory) query);;
        match rewrite_llm co (history_of memory) query with
        | inl e => ret query                      (* logged, and the query is kept *)
        | inr completion =>
            let rewritten := strip_char quote (strip completion) in
            if bool_decide (5 < String.length rewritten)%nat
            then ret rewritten
            else ret query
        end
  end.

(** *** Streaming *)

(** [async for token in self._stream_llm(..): full_answer += token; yield token] *)
Fixpoint stream_tokens (tokens : list string) (full_answer : string) : M string :=
  match tokens with
  | [] => ret full_answer
  | tok :: tokens' =>
      yield tok;;
      stream_tokens tokens' (full_answer +:+ tok)
  end.

Definition stream (co : collaborators) (r : request) : M string :=
  called (StreamLLM r);;
  let '(tokens, failure) := _stream_llm co r in
  let* full_answer := stream_tokens tokens EmptyString in
  match failure with
  | Some e => raise e
  | None => ret full_answer
  end.

(** [self.master.prefer_message(routed)] *)
Definition prefer_message (co : collaborators) (routed : MasterAgent.routed) : string :=
  match MasterAgent.routed_message routed with
  | Some (String c msg) => String c msg
  | _ => str_data co routed
  end.

Definition user : string := "user".
Definition assistant : string := "assistant".

(** *** [chat_stream] *)
Definition chat_stream (bot : t) (co : collaborators) (user_input : string) : M unit :=
  match strip user_input with
  | EmptyString => yield EmptyString
  | _ =>
      (* 1. classify *)
      called (Classified user_input);;
      let classification := _classify_query user_input in
      if negb (needs_routing classification) then
        (* 2. acknowledgments and out-of-scope messages are not routed *)
        remember user user_input;;
        let* memory := get_memory in
        let* full_answer := stream co (Reply classification (last_turns 4 memory)) in
        remember assistant full_answer
      else
        (* 3. rewrite and route *)
        let* search_query := _rewrite_query co user_input in
        called (Routed search_query);;
        match route_query co search_query with
        | inl e =>
            let error_msg := "I encountered an issue: " +:+ exn_text e
                             +:+ ". Please try again." in
            remember user user_input;;
            remember assistant error_msg;;
            yield error_msg
        | inr routed =>
            if bool_decide (MasterAgent.routed_status routed = Some "error") then
              (* 4. errors of the dispatcher *)
              let err_msg :=
                match MasterAgent.routed_message routed with
                | Some (String c msg) => String c msg
                | _ => "I couldn't process that request."
                end in
              let err_msg :=
                if contains "please log in" (lower err_msg)
                then "Your Zerodha Kite session is not active. Please click **Connect** in the sidebar."
                else err_msg in
              remember user user_input;;
              remember assistant err_msg;;
              yield err_msg
            else if bool_decide (MasterAgent.routed_status routed = Some "success") then
              (* 5. narration *)
              if narrate bot then
                let* memory := get_memory in
                let* full_answer :=
                  stream co (Narration user_input routed (last_turns 6 memory)) in
                remember user user_input;;
                remember assistant full_answer
              else
                let pretty := prefer_message co routed in
                remember user user_input;;
                remember assistant pretty;;
                yield pretty
            else
              (* 6. fallback *)
              remember user user_input;;
              let* memory := get_memory in
              let* full_answer := stream co (Fallback (last_turns 6 memory)) in
              remember assistant full_answer
        end
  end.

(** The query that the dispatcher receives: the one [_rewrite_query]
    returns on this memory. *)
Definition search_query_of (co : collaborators) (user_input : string)
    (memory : list turn) : string :=
  match (_rewrite_query co user_input (mk_state memory [] [])).1 with
  | inr search_query => search_query
  | inl _ => user_input
  end.

(** [user_input] is empty or holds white space only. *)
Fixpoint is_blank (user_input : string) : bool :=
  match user_input with
  | EmptyString => true
  | String c rest => is_space c && is_blank rest
  end.

(** One turn, from a memory: what was yielded, what was called, what the
    memory is at the end. *)
Definition turn_of (bot : t) (co : collaborators) (user_input : string)
    (memory : list turn) : (exn + unit) * state :=
  chat_stream bot co user_input (mk_state memory [] []).

(** The consumer stops at the [k]-th token: the memory that stays. *)
Definition memory_if_cancelled (run : (exn + unit) * state) (k : nat)
  : option (list turn) :=
  memory_then <$> yielded run.2 !! k.

(** A turn that is cancelled before its last token leaves the memory as
    it was before the turn. *)
Definition cancelled_turn_leaves_memory (bot : t) (co : collaborators)
    (user_input : string) (memory : list turn) : Prop :=
  ∀ k, (S k < length (yielded (turn_of bot co user_input memory).2))%nat →
       memory_if_cancelled (turn_of bot co user_input memory) k = Some memory.

(** *** [_truncate], [chat] *)

(** [s[:stop]] *)
Definition slice_to (stop : Z) (s : string) : string :=
  let len := Z.of_nat (String.length s) in
  let last := if bool_decide (stop < 0) then Z.max 0 (len + stop) else Z.min stop len in
  String.substring 0 (Z.to_nat last) s.

(** [_truncate(s, n)] *)
Definition _truncate (s : string) (n : Z) : string :=
  if bool_decide (Z.of_nat (String.length s) ≤ n) then s
  else slice_to (n - 3) s +:+ "...".

(** [chat]: [full_response += token] for every token of [chat_stream]. *)
Definition chat (bot : t) (co : collaborators) (user_input : string)
    (memory : list turn) : (exn + string) * state :=
  let '(res, st) := turn_of bot co user_input memory in
  (match res with
   | inl e => inl e
   | inr _ => inr (foldl String.append EmptyString (token <$> yielded st))
   end, st).

(** The tokens of a stream are yielded on the memory the stream starts on. *)
Definition snapshots (memory : list turn) (tokens : list string) : list suspension :=
  (λ tok, mk_suspension tok memory) <$> tokens.

End KiteChatbot.

(** ** The scenarios of the specification *)
Module Scenario.
Import Py.

(** A client with the default settings: one request per second, five
    retries, two seconds of base delay; no session on the disk. *)
Definition client : KiteMCPClient.t :=
  KiteMCPClient.mk KiteMCPClient.user_agent false false (RateLimiter.init 1 1000) 5 2000.

Definition world : KiteMCPClient.world := KiteMCPClient.mk_world 0 None [] 0 0.

Definition connection_reset : exn :=
  mk_exn "ConnectionResetError" "Connection reset by peer" false.

Definition too_many_requests : exn :=
  mk_exn "ToolError" "HTTP 429 Too Many Requests" false.

Definition profile : KiteMCPClient.response :=
  KiteMCPClient.mk_response ["{ user_name: demo }"].

(** A gateway whose transport breaks on the first three invocations. *)
Definition broken_thrice : KiteMCPClient.gateway :=
  KiteMCPClient.mk_gateway
    (λ _, None)
    (λ n _ _, if (n <? 3)%nat then inl connection_reset else inr profile).

(** A gateway that refuses every invocation. *)
Definition throttling : KiteMCPClient.gateway :=
  KiteMCPClient.mk_gateway (λ _, None) (λ _ _ _, inl too_many_requests).

(** A dispatcher with two agents; [get_holdings] takes no parameter. *)
Definition agents : gmap string (list MasterAgent.tool_spec) :=
  {[ "portfolio" := [MasterAgent.mk_tool_spec "get_holdings" "Holdings" ∅;
                     MasterAgent.mk_tool_spec "get_positions" "Positions" ∅];
     "account" := [MasterAgent.mk_tool_spec "get_profile" "Profile" ∅;
                   MasterAgent.mk_tool_spec "get_margins" "Margins"
                                            {[ "segment" := "str" ]}] ]}.

Definition master : MasterAgent.t :=
  MasterAgent.mk true agents (MasterAgent._build_catalog agents) true.

Definition holdings : MasterAgent.result :=
  MasterAgent.mk_result (Some "success") None None (Some (VStr "[]")).

(** The router selects [get_holdings] with an argument it does not have. *)
Definition bogus_argument : MasterAgent.collaborators :=
  MasterAgent.mk_collaborators
    (λ _ _, inr holdings)
    (λ _, inr (Some (MasterAgent.mk_selection
                       (Some "portfolio") (Some "get_holdings")
                       (Some {[ "bogus" := VStr "x" ]}) None))).

(** The router plans a known step and then an unknown one. *)
Definition corrupted_plan : list MasterAgent.plan_step :=
  [MasterAgent.mk_plan_step "portfolio" "get_holdings" None;
   MasterAgent.mk_plan_step "portfolio" "sell_everything" None].

Definition plans_unknown_tool : MasterAgent.collaborators :=
  MasterAgent.mk_collaborators
    (λ _ _, inr holdings)
    (λ _, inr (Some (MasterAgent.mk_selection None None None (Some corrupted_plan)))).

(** The agent fails. *)
Definition session_expired : exn :=
  mk_exn "ToolError" "Please log in first" false.

Definition failing_agent : MasterAgent.collaborators :=
  MasterAgent.mk_collaborators (λ _ _, inl session_expired) (λ _, inr None).

(** A chatbot that narrates; the LLM streams two tokens, the dispatcher
    answers with the holdings. *)
Definition bot : KiteChatbot.t := KiteChatbot.mk true.

Definition routed_holdings : MasterAgent.routed :=
  MasterAgent.mk_routed (Some "success") None
    (Some ([MasterAgent.mk_step "portfolio" "get_holdings" ∅], [holdings])).

Definition two_tokens : KiteChatbot.collaborators :=
  KiteChatbot.mk_collaborators
    (λ _ query, inr query)
    (λ _, (["Hello"; "!"], None))
    (λ _, inr routed_holdings)
    (λ _, "[]").

(** A gateway that turns the arguments down. *)
Definition invalid_arguments : exn :=
  mk_exn "ToolError" "Invalid arguments for tool" false.

Definition rejecting : KiteMCPClient.gateway :=
  KiteMCPClient.mk_gateway (λ _, None) (λ _ _ _, inl invalid_arguments).

(** A gateway that asks for a login. *)
Definition login_prompt : KiteMCPClient.response :=
  KiteMCPClient.mk_response ["Please log in first using the login tool"].

Definition asking_login : KiteMCPClient.gateway :=
  KiteMCPClient.mk_gateway (λ _, None) (λ _ _ _, inr login_prompt).

(** A client that holds a session, connected. *)
Definition logged_in : KiteMCPClient.t :=
  KiteMCPClient.mk (<[ "Cookie" := "kite_session=abc" ]> KiteMCPClient.user_agent)
                   true true (RateLimiter.init 1 1000) 5 2000.

(** The router selects a tool that no agent has. *)
Definition selects_unknown_tool : MasterAgent.collaborators :=
  MasterAgent.mk_collaborators
    (λ _ _, inr holdings)
    (λ _, inr (Some (MasterAgent.mk_selection
                       (Some "portfolio") (Some "sell_everything") None None))).

(** The router plans two known steps; every agent fails. *)
Definition two_steps : list MasterAgent.plan_step :=
  [MasterAgent.mk_plan_step "portfolio" "get_holdings" None;
   MasterAgent.mk_plan_step "account" "get_margins"
     (Some {[ "segment" := VStr "equity"; "verbose" := VBool true ]})].

Definition plans_two_steps : MasterAgent.collaborators :=
  MasterAgent.mk_collaborators
    (λ _ _, inl session_expired)
    (λ _, inr (Some (MasterAgent.mk_selection None None None (Some two_steps)))).

(** The router selects [get_holdings]; the agent fails. *)
Definition holdings_fail : MasterAgent.collaborators :=
  MasterAgent.mk_collaborators
    (λ _ _, inl session_expired)
    (λ _, inr (Some (MasterAgent.mk_selection
                       (Some "portfolio") (Some "get_holdings") None None))).

(** The LLM stream breaks after one token. *)
Definition stream_broken : exn := mk_exn "APIConnectionError" "Connection error." false.

Definition breaks_mid_stream : KiteChatbot.collaborators :=
  KiteChatbot.mk_collaborators
    (λ _ query, inr query)
    (λ _, (["Hel"], Some stream_broken))
    (λ _, inr routed_holdings)
    (λ _, "[]").

(** The dispatcher raises. *)
Definition dispatcher_down : KiteChatbot.collaborators :=
  KiteChatbot.mk_collaborators
    (λ _ query, inr query)
    (λ _, (["Hello"; "!"], None))
    (λ _, inl stream_broken)
    (λ _, "[]").

(** The dispatcher answers that the user must log in. *)
Definition routed_login : MasterAgent.routed :=
  MasterAgent.mk_routed (Some "error") (Some "Please log in to Kite first.") None.

Definition needs_login : KiteChatbot.collaborators :=
  KiteChatbot.mk_collaborators
    (λ _ query, inr query)
    (λ _, (["Hello"; "!"], None))
    (λ _, inr routed_login)
    (λ _, "[]").

End Scenario.

(* ===================================================================== *)
(** * Properties                                                          *)
(* ===================================================================== *)

Section rate_limiter.
Import RateLimiter.

Example acquire_once_grants :
  acquire_once (mk 2 10 [3]) 5 = Granted (mk 2 10 [3; 5]).
Proof. reflexivity. Qed.

Example acquire_once_waits :
  acquire_once (mk 2 10 [3; 5]) 7 = MustWait 6 (mk 2 10 [3; 5]).
Proof. reflexivity. Qed.

Example run_three :
  grant_times (run (init 2 10) 0 [mk_arrival 3 []; mk_arrival 2 []; mk_arrival 2 [1%N]])
  = [3; 5; 14].
Proof. reflexivity. Qed.


(** *** Facts on lists of time stamps *)

Lemma filter_length_mono {A} (P Q : A → Prop)
    `{!∀ x, Decision (P x)} `{!∀ x, Decision (Q x)} (l : list A) :
  (∀ x, P x → Q x) → (length (filter P l) ≤ length (filter Q l))%nat.
Proof.
  intros HPQ. induction l as [|x l IH]; [done|].
  rewrite !filter_cons.
  destruct (decide (P x)) as [HP|HP], (decide (Q x)) as [HQ|HQ]; simpl; try lia.
  exfalso. auto.
Qed.

Lemma filter_narrow {A} (P Q : A → Prop)
    `{!∀ x, Decision (P x)} `{!∀ x, Decision (Q x)} (l : list A) :
  (∀ x, P x → Q x) → filter P (filter Q l) = filter P l.
Proof.
  intros HPQ. induction l as [|x l IH]; [done|].
  rewrite (filter_cons Q), (filter_cons P).
  destruct (decide (Q x)) as [HQ|HQ].
  - rewrite filter_cons, IH. done.
  - rewrite IH. destruct (decide (P x)) as [HP|HP]; [|done].
    exfalso. auto.
Qed.

Lemma oldest_of_sorted (r : Z) (rs : list Z) :
  StronglySorted Z.le (r :: rs) → oldest (r :: rs) = Some r.
Proof.
  intros Hs. apply StronglySorted_inv in Hs as [_ Hall].
  simpl. f_equal.
  induction rs as [|x rs IH]; [done|].
  apply Forall_cons in Hall as [Hx Hall]. simpl. rewrite IH by done. lia.
Qed.

Lemma Forall_filter_keep {A} (P Q : A → Prop) `{!∀ x, Decision (P x)} (l : list A) :
  Forall Q l → Forall Q (filter P l).
Proof.
  induction 1 as [|x l Hx Hall IH]; [constructor|].
  rewrite filter_cons. destruct (decide (P x)); [by constructor|done].
Qed.

Lemma sorted_filter (P : Z → Prop) `{!∀ x, Decision (P x)} (l : list Z) :
  StronglySorted Z.le l → StronglySorted Z.le (filter P l).
Proof.
  induction 1 as [|x l Hs IH Hall]; [constructor|].
  rewrite filter_cons. destruct (decide (P x)); [|done].
  constructor; [done|]. by apply Forall_filter_keep.
Qed.

Lemma sorted_snoc (l : list Z) (x : Z) :
  StronglySorted Z.le l → Forall (λ r, r ≤ x) l → StronglySorted Z.le (l ++ [x]).
Proof.
  intros Hs Hall. apply StronglySorted_app_2; [|done|repeat constructor].
  intros x1 x2 H1 H2. apply list_elem_of_singleton in H2 as ->.
  by apply (proj1 (Forall_forall _ _) Hall).
Qed.

(** *** [acquire] returns: from any state, when the limit is positive *)

Lemma acquire_loop_returns fuel : ∀ rl now jit,
  1 ≤ max_requests rl →
  (length (in_window rl now) < fuel)%nat →
  ∃ at_time rl' ws,
    acquire_loop fuel rl now jit = (Acquired at_time rl', ws) ∧
    now ≤ at_time ∧
    max_requests rl' = max_requests rl ∧
    time_window rl' = time_window rl.
Proof.
  induction fuel as [|fuel IH]; intros rl now jit Hlim Hfuel; [lia|].
  simpl. unfold acquire_once. case_bool_decide as Hfull.
  { eexists _, _, _. split_and!; [done|lia|done..]. }
  destruct (in_window rl now) as [|first rest] eqn:Hwin.
  { simpl in Hfull. lia. }
  assert (now - first < time_window rl) as Hfresh.
  { assert (first ∈ in_window rl now) as Hin by (rewrite Hwin; left).
    by apply list_elem_of_filter in Hin as [? _]. }
  set (s := time_window rl - (now - first)).
  set (now' := after_sleep now s (hd 0%N jit)).
  assert (first + time_window rl ≤ now') as Hnow'.
  { unfold now', after_sleep, s. case_bool_decide; lia. }
  destruct (IH (with_requests rl (first :: rest)) now' (tl jit))
    as (at_time & rl' & ws & Heq & Hle & Hmax & Hwd); [done| |].
  - unfold in_window. simpl. rewrite filter_cons_False by lia.
    pose proof (length_filter (λ r, now' - r < time_window rl) rest).
    simpl in Hfuel. lia.
  - rewrite Heq. eexists _, _, _. split_and!; [done| |done..].
    unfold now', after_sleep in *. case_bool_decide; lia.
Qed.

Lemma acquire_returns rl now jit :
  1 ≤ max_requests rl →
  ∃ at_time rl' ws,
    acquire rl now jit = (Acquired at_time rl', ws) ∧
    now ≤ at_time ∧
    max_requests rl' = max_requests rl ∧
    time_window rl' = time_window rl.
Proof.
  intros Hlim. apply acquire_loop_returns; [done|].
  pose proof (length_filter (λ r, now - r < time_window rl) (requests rl)).
  unfold in_window. lia.
Qed.

(** The loop never uses up its passes, whatever the limit. *)
Lemma acquire_loop_terminates fuel : ∀ rl now jit,
  (length (in_window rl now) < fuel)%nat →
  (acquire_loop fuel rl now jit).1 ≠ OutOfFuel.
Proof.
  induction fuel as [|fuel IH]; intros rl now jit Hfuel; [lia|].
  simpl. unfold acquire_once. case_bool_decide as Hfull; [done|].
  destruct (in_window rl now) as [|first rest] eqn:Hwin; [done|].
  assert (now - first < time_window rl) as Hfresh.
  { assert (first ∈ in_window rl now) as Hin by (rewrite Hwin; left).
    by apply list_elem_of_filter in Hin as [? _]. }
  set (s := time_window rl - (now - first)).
  set (now' := after_sleep now s (hd 0%N jit)).
  assert (first + time_window rl ≤ now') as Hnow'.
  { unfold now', after_sleep, s. case_bool_decide; lia. }
  specialize (IH (with_requests rl (first :: rest)) now' (tl jit)).
  destruct (acquire_loop fuel _ now' (tl jit)) as [o ws]. simpl in *.
  apply IH. unfold in_window. simpl. rewrite filter_cons_False by lia.
  pose proof (length_filter (λ r, now' - r < time_window rl) rest). lia.
Qed.

Lemma acquire_terminates rl now jit : (acquire rl now jit).1 ≠ OutOfFuel.
Proof.
  apply acquire_loop_terminates.
  pose proof (length_filter (λ r, now - r < time_window rl) (requests rl)).
  unfold in_window. lia.
Qed.

(** *** The invariant of a limiter with [limit] requests per [window] *)

Section invariant.
Variables (limit window : Z).

#[local] Abbreviation fresh now := (λ req_time : Z, now - req_time < window).

#[local] Abbreviation inv := (RateLimiter.inv limit window).
#[local] Abbreviation wait_ok := (RateLimiter.wait_ok window).

Lemma in_window_fresh rl now :
  time_window rl = window → in_window rl now = filter (fresh now) (requests rl).
Proof. intros <-. reflexivity. Qed.

Lemma inv_init now : 0 ≤ limit → inv [] (init limit window) now.
Proof. intros Hl. split; simpl; try done; constructor. Qed.

Lemma inv_later grants rl now now' :
  now ≤ now' → inv grants rl now → inv grants rl now'.
Proof.
  intros Hle [Hl Hw Hr Hs Hp Hb]. split; try done.
  - intros now'' Hle'. apply Hr. lia.
  - eapply Forall_impl; [exact Hp|]. simpl. intros. lia.
Qed.

Lemma inv_pruned grants rl now :
  inv grants rl now → inv grants (with_requests rl (in_window rl now)) now.
Proof.
  intros [Hl Hw Hr Hs Hp Hb]. rewrite in_window_fresh by done.
  split; simpl; try done.
  - intros now' Hle. rewrite <- Hr by done.
    apply filter_narrow. simpl. intros. lia.
  - by apply sorted_filter.
  - by apply Forall_filter_keep.
Qed.

Lemma inv_granted grants rl now :
  inv grants rl now →
  Z.of_nat (length (in_window rl now)) < limit →
  inv (grants ++ [now]) (with_requests rl (in_window rl now ++ [now])) now.
Proof.
  intros Hinv Hlt. pose proof (inv_pruned _ _ _ Hinv) as [Hl Hw Hr Hs Hp Hb].
  simpl in *. split; simpl; try done.
  - intros now' Hle. by rewrite !filter_app, Hr.
  - by apply sorted_snoc.
  - apply Forall_app. split; [done|]. repeat constructor. lia.
  - intros t. unfold granted_within in *. rewrite filter_app, length_app.
    rewrite filter_cons, filter_nil.
    destruct (decide (t ≤ now < t + window)) as [Hin|Hout]; simpl.
    + assert (Z.of_nat (length (filter (λ g, t ≤ g < t + window) grants))
              ≤ Z.of_nat (length (filter (fresh now) grants))) as Hmono.
      { apply inj_le, filter_length_mono. simpl. intros. lia. }
      rewrite <- Hr in Hmono by lia.
      pose proof (length_filter (fresh now) (in_window rl now)). lia.
    + specialize (Hb t). lia.
Qed.

(** *** The loop of [acquire] *)

Lemma acquire_loop_ok fuel : ∀ rl now jit grants,
  1 ≤ limit →
  inv grants rl now →
  (length (in_window rl now) < fuel)%nat →
  ∃ at_time rl' ws,
    acquire_loop fuel rl now jit = (Acquired at_time rl', ws) ∧
    now ≤ at_time ∧
    inv (grants ++ [at_time]) rl' at_time ∧
    Forall wait_ok ws.
Proof.
  induction fuel as [|fuel IH]; intros rl now jit grants Hlim Hinv Hfuel; [lia|].
  simpl. unfold acquire_once.
  pose proof (inv_limit _ _ _ _ _ Hinv) as Hl.
  pose proof (inv_window _ _ _ _ _ Hinv) as Hw.
  case_bool_decide as Hfull.
  - exists now, (with_requests rl (in_window rl now ++ [now])), [].
    split_and!; [done|lia| |constructor].
    apply inv_granted; [done|lia].
  - pose proof (inv_pruned _ _ _ Hinv) as Hinv'.
    destruct (in_window rl now) as [|first rest] eqn:Hwin.
    { simpl in Hfull. lia. }
    assert (fresh now first) as Hfresh.
    { assert (first ∈ in_window rl now) as Hin by (rewrite Hwin; left).
      rewrite in_window_fresh in Hin by done.
      by apply list_elem_of_filter in Hin as [? _]. }
    simpl in Hfresh.
    set (s := time_window rl - (now - first)).
    set (now' := after_sleep now s (hd 0%N jit)).
    assert (0 < s) as Hs by (unfold s; lia).
    assert (first + window ≤ now') as Hnow'.
    { unfold now', after_sleep. rewrite bool_decide_eq_true_2 by done.
      unfold s. lia. }
    destruct (IH (with_requests rl (first :: rest)) now' (tl jit) grants)
      as (at_time & rl' & ws & Heq & Hle & Hinv'' & Hws).
    + done.
    + apply inv_later with now; [lia|done].
    + rewrite in_window_fresh by done. simpl.
      rewrite filter_cons_False by lia.
      pose proof (length_filter (fresh now') rest). simpl in Hfuel. lia.
    + rewrite Heq. exists at_time, rl', (mk_wait now (first :: rest) s :: ws).
      split_and!; [done|lia|done|].
      constructor; [|done]. split; simpl; [done|].
      exists first. split; [|unfold s; by rewrite Hw].
      apply oldest_of_sorted. apply (inv_sorted _ _ _ _ _ Hinv').
Qed.

Lemma acquire_ok rl now jit grants :
  1 ≤ limit →
  inv grants rl now →
  ∃ at_time rl' ws,
    acquire rl now jit = (Acquired at_time rl', ws) ∧
    now ≤ at_time ∧
    inv (grants ++ [at_time]) rl' at_time ∧
    Forall wait_ok ws.
Proof.
  intros Hlim Hinv. apply acquire_loop_ok; [done..|].
  rewrite in_window_fresh by (destruct Hinv; done).
  pose proof (length_filter (fresh now) (requests rl)). lia.
Qed.

Lemma run_ok calls : ∀ rl now grants,
  1 ≤ limit →
  inv grants rl now →
  Forall (λ s, was_granted s = true) (run rl now calls) ∧
  (∀ t, Z.of_nat (length (granted_within t window
                            (grants ++ grant_times (run rl now calls)))) ≤ limit) ∧
  Forall wait_ok (all_waits (run rl now calls)).
Proof.
  induction calls as [|c calls IH]; intros rl now grants Hlim Hinv.
  - simpl. unfold grant_times, all_waits. simpl. rewrite app_nil_r.
    split_and!; [constructor|apply Hinv|constructor].
  - simpl.
    destruct (acquire_ok rl (now + Z.of_N (gap c)) (jitter c) grants)
      as (at_time & rl' & ws & Heq & Hle & Hinv' & Hws); [done| |].
    { apply inv_later with now; [lia|done]. }
    rewrite Heq. simpl.
    destruct (IH rl' at_time (grants ++ [at_time]) Hlim Hinv') as (Hg & Hb & Hw).
    unfold grant_times, all_waits in *. simpl.
    split_and!.
    + by constructor.
    + intros t. specialize (Hb t). by rewrite <- app_assoc in Hb.
    + by apply Forall_app.
Qed.

Lemma admission_checks_ok gaps : ∀ rl now grants,
  inv grants rl now →
  ∀ t, Z.of_nat (length (granted_within t window
                           (grants ++ admission_checks rl now gaps))) ≤ limit.
Proof.
  induction gaps as [|gap gaps IH]; intros rl now grants Hinv t.
  - simpl. rewrite app_nil_r. apply Hinv.
  - simpl. set (now' := now + Z.of_N gap).
    assert (inv grants rl now') as Hinv' by (apply inv_later with now; [lia|done]).
    unfold acquire_once. case_bool_decide as Hfull.
    + rewrite (cons_middle now' grants), app_assoc. apply IH.
      apply inv_granted; [done|].
      by rewrite (inv_limit _ _ _ _ _ Hinv) in Hfull.
    + destruct (in_window rl now') as [|first rest] eqn:Hwin;
        apply IH; rewrite <- Hwin; by apply inv_pruned.
Qed.

End invariant.

(** C1.  On a limiter that allows at least one request per window, every
    [acquire] of every sequence of calls is granted (none fails), no window
    of length [time_window] holds more than [max_requests] grants, and
    every wait was for [time_window - (now - oldest request in the window)],
    a positive time.  The bound on the windows holds as well for every
    sequence of admission checks, whoever makes them. *)
Theorem acquire_sliding_window (limit window start : Z) (calls : list arrival) :
  1 ≤ limit →
  let log := run (init limit window) start calls in
  Forall (λ s, was_granted s = true) log ∧
  (∀ t, Z.of_nat (length (granted_within t window (grant_times log))) ≤ limit) ∧
  Forall (λ w, 0 < wait_slept w ∧
               ∃ first, oldest (wait_window w) = Some first ∧
                        wait_slept w = window - (wait_at w - first))
         (all_waits log) ∧
  (∀ gaps t,
     Z.of_nat (length (granted_within t window
                         (admission_checks (init limit window) start gaps))) ≤ limit).
Proof.
  intros Hlim log.
  destruct (run_ok limit window calls (init limit window) start [] Hlim)
    as (Hg & Hb & Hw).
  { apply inv_init. lia. }
  split_and!; [exact Hg|exact Hb|exact Hw|].
  intros gaps t.
  apply (admission_checks_ok limit window gaps (init limit window) start []).
  apply inv_init. lia.
Qed.

Lemma acquire_sliding_window_witness :
  1 ≤ 2 ∧
  let log := run (init 2 10) 0 [mk_arrival 3 []; mk_arrival 2 []; mk_arrival 2 [1%N]] in
  Forall (λ s, was_granted s = true) log ∧
  (∀ t, Z.of_nat (length (granted_within t 10 (grant_times log))) ≤ 2) ∧
  Forall (λ w, 0 < wait_slept w ∧
               ∃ first, oldest (wait_window w) = Some first ∧
                        wait_slept w = 10 - (wait_at w - first))
         (all_waits log) ∧
  (∀ gaps t,
     Z.of_nat (length (granted_within t 10 (admission_checks (init 2 10) 0 gaps))) ≤ 2).
Proof.
  split; [lia|].
  apply (acquire_sliding_window 2 10 0
           [mk_arrival 3 []; mk_arrival 2 []; mk_arrival 2 [1%N]]).
  lia.
Defined.

(** With [max_requests = 0] the window is empty and full at once:
    [self.requests[0]] raises. *)
Example acquire_zero_limit :
  acquire (init 0 10) 5 [] = (Raised 5 (init 0 10), []).
Proof. reflexivity. Qed.

End rate_limiter.

(* ===================================================================== *)
(** ** KiteMCPClient.call: retries                                        *)
(* ===================================================================== *)

Section client_call.
Import Py Eff KiteMCPClient.

Variable gw : gateway.
Variables (tool_name : string) (args : kwargs).

(** Running the monad: unfold its operations on a given state. *)
Ltac run_client :=
  repeat (progress (unfold restore_sessionM, client_aenter, log, advance, bind, ret,
                      raise, try_except, get_client, get_world, put_client, put_world;
                    cbn [fst snd])).

Lemma steady_refl c : steady c c.
Proof. by repeat split. Qed.

Lemma steady_trans c1 c2 c3 : steady c1 c2 → steady c2 c3 → steady c1 c3.
Proof. intros (?&?&?) (?&?&?). repeat split; congruence. Qed.

Lemma backoffs_app evs1 evs2 : backoffs (evs1 ++ evs2) = backoffs evs1 ++ backoffs evs2.
Proof. unfold backoffs. apply bind_app. Qed.

Lemma attempts_and_reconnects_app evs1 evs2 :
  attempts_and_reconnects (evs1 ++ evs2)
  = attempts_and_reconnects evs1 ++ attempts_and_reconnects evs2.
Proof. apply List.filter_app. Qed.

Lemma count_app p evs1 evs2 : count p (evs1 ++ evs2) = (count p evs1 + count p evs2)%nat.
Proof. unfold count. by rewrite List.filter_app, length_app. Qed.

(** Events of the limiter are neither attempts, reconnections nor backoffs. *)
Lemma throttled_quiet (ws : list RateLimiter.wait) :
  let evs := Throttled ∘ RateLimiter.wait_slept <$> ws in
  backoffs evs = [] ∧ attempts_and_reconnects evs = [] ∧
  count is_call_tool evs = 0%nat ∧ count is_force_reconnect evs = 0%nat.
Proof. induction ws as [|w ws IH]; [done|]. simpl in *. done. Qed.

Lemma call_tool_run c w :
  call_tool gw tool_name args (c, w)
  = (on_call_tool gw (tool_calls w) tool_name args,
     (c, mk_world (clock w) (disk w) (trace w ++ [CallTool tool_name args])
                  (connects w) (S (tool_calls w)))).
Proof.
  unfold call_tool. run_client.
  by destruct (on_call_tool gw (tool_calls w) tool_name args).
Qed.

Lemma acquire_run c w :
  1 ≤ RateLimiter.max_requests (rate_limiter c) →
  ∃ at_time rl ws,
    acquire (c, w)
    = (inr tt, (set_rate_limiter c rl,
                mk_world at_time (disk w)
                         (trace w ++ (Throttled ∘ RateLimiter.wait_slept <$> ws))
                         (connects w) (tool_calls w))) ∧
    RateLimiter.max_requests rl = RateLimiter.max_requests (rate_limiter c).
Proof.
  intros Hlim.
  destruct (acquire_returns (rate_limiter c) (clock w) [] Hlim)
    as (at_time & rl & ws & Heq & _ & Hmax & _).
  exists at_time, rl, ws. split; [|done].
  unfold acquire. run_client. by rewrite Heq.
Qed.

Lemma restore_session_frame c d :
  let c' := (restore_session c d).1 in
  has_client c' = has_client c ∧ has_transport c' = has_transport c ∧
  rate_limiter c' = rate_limiter c ∧
  max_retries c' = max_retries c ∧ retry_delay c' = retry_delay c.
Proof.
  destruct d as [[saved|]|]; simpl; try done.
  destruct (decide (saved = ∅)); done.
Qed.

(** [connect] on a client that has no connection yet. *)
Lemma connect_run c w :
  has_client c = false →
  ∃ c',
    connect gw (c, w)
    = (match on_connect gw (connects w) with Some e => inl e | None => inr tt end,
       (c', mk_world (clock w) (disk w) (trace w ++ [Connected])
                     (S (connects w)) (tool_calls w))) ∧
    has_client c' = true ∧ steady c c'.
Proof.
  intros Hno.
  pose proof (restore_session_frame c (disk w)) as (_ & _ & Hrl & Hmr & Hrd).
  unfold connect. run_client. rewrite Hno. run_client.
  destruct (restore_session c (disk w)) as [c1 found] eqn:Hrs. run_client.
  simpl in *.
  eexists. split.
  - destruct (on_connect gw (connects w)); reflexivity.
  - split; [done|]. unfold steady. simpl. by rewrite Hrl, Hmr, Hrd.
Qed.

#[local] Abbreviation attempt_once :=
  (let* c := get_client in
   (if has_client c then ret tt else connect gw);;
   acquire;;
   let* result := call_tool gw tool_name args in
   ret (Some result)).

(** One pass of the [try] block: the tool is invoked once, and how the
    pass ends is how the invocation ends. *)
Lemma attempt_run c w :
  1 ≤ RateLimiter.max_requests (rate_limiter c) →
  has_client c = true ∨ on_connect gw (connects w) = None →
  ∃ c' w' evs,
    attempt_once (c, w)
    = (match on_call_tool gw (tool_calls w) tool_name args with
       | inl e => inl e
       | inr r => inr (Some r)
       end, (c', w')) ∧
    has_client c' = true ∧ steady c c' ∧
    trace w' = trace w ++ evs ++ [CallTool tool_name args] ∧
    tool_calls w' = S (tool_calls w) ∧
    quiet evs.
Proof.
  intros Hlim Hconn.
  assert (∃ c1 w1 evs1,
    (if has_client c then ret tt else connect gw) (c, w)
    = (inr tt, (c1, w1)) ∧ has_client c1 = true ∧ steady c c1 ∧
    trace w1 = trace w ++ evs1 ∧ tool_calls w1 = tool_calls w ∧ quiet evs1)
    as (c1 & w1 & evs1 & Heq1 & Hc1 & Hst1 & Htr1 & Htc1 & Hq1).
  { destruct (has_client c) eqn:Hc.
    - exists c, w, []. run_client.
      split_and!; [done|done|apply steady_refl|by rewrite app_nil_r|done|done].
    - destruct Hconn as [?|Hconn]; [done|].
      destruct (connect_run c w Hc) as (c1 & Heq & Hc1 & Hst).
      rewrite Hconn in Heq.
      eexists c1, _, [Connected]. rewrite Heq.
      split_and!; done. }
  destruct (acquire_run c1 w1) as (at_time & rl & ws & Heq2 & Hmax).
  { destruct Hst1 as (_ & _ & ->). done. }
  pose proof (throttled_quiet ws) as Hq2. simpl in Hq2.
  exists (set_rate_limiter c1 rl),
    (mk_world at_time (disk w1)
       ((trace w1 ++ (Throttled ∘ RateLimiter.wait_slept <$> ws))
        ++ [CallTool tool_name args])
       (connects w1) (S (tool_calls w1))),
    (evs1 ++ (Throttled ∘ RateLimiter.wait_slept <$> ws)).
  split_and!.
  - unfold bind, get_client. cbn [fst snd]. rewrite Heq1, Heq2, call_tool_run.
    cbn [tool_calls clock disk trace connects]. rewrite Htc1.
    destruct (on_call_tool gw (tool_calls w) tool_name args); reflexivity.
  - done.
  - eapply steady_trans; [exact Hst1|]. by repeat split.
  - simpl. rewrite Htr1. by rewrite <- !app_assoc.
  - simpl. by rewrite Htc1.
  - destruct Hq1 as (Hb1 & Ha1 & Hn1 & Hf1), Hq2 as (Hb2 & Ha2 & Hn2 & Hf2).
    unfold quiet. rewrite backoffs_app, attempts_and_reconnects_app, !count_app.
    by rewrite Hb1, Hb2, Ha1, Ha2, Hn1, Hn2, Hf1, Hf2.
Qed.

(** [force_reconnect] inside [try ... except Exception]: one forced
    reconnection, whether it succeeds or not, and a client object after. *)
Lemma reconnect_run c w :
  has_client c = true →
  ∃ c' w' evs,
    try_except (force_reconnect gw) (λ _, ret tt) (c, w) = (inr tt, (c', w')) ∧
    has_client c' = true ∧ steady c c' ∧
    trace w' = trace w ++ ForceReconnect :: evs ∧
    tool_calls w' = tool_calls w ∧
    quiet evs.
Proof.
  intros Hc. unfold force_reconnect. run_client. rewrite Hc. run_client.
  match goal with |- context [connect gw (?c2, ?w2)] =>
    destruct (connect_run c2 w2) as (c' & Heq & Hc' & Hst); [done|];
    rewrite Heq
  end.
  exists c'. simpl in *.
  destruct (on_connect gw (connects w)); run_client;
    (eexists _, [Closed; Paused reconnect_pause; Connected];
     split_and!; [done|done|done| |done|done]);
    simpl; by rewrite <- !app_assoc.
Qed.

#[local] Abbreviation on_failure attempts' attempt e :=
  (let* c := get_client in
   match classify e with
   | RateLimited =>
       if bool_decide (attempt < max_retries c) then
         let wait_time := retry_delay c * 2 ^ attempt in
         log (Backoff wait_time);;
         advance wait_time;;
         call_from gw tool_name args attempts' (attempt + 1) (Some e)
       else raise (rate_limit_exceeded (max_retries c))
   | TransportBroken =>
       if bool_decide (attempt < max_retries c) then
         let wait_time := retry_delay c * 2 ^ attempt in
         try_except (force_reconnect gw) (λ reconnect_err, ret tt);;
         log (Backoff wait_time);;
         advance wait_time;;
         call_from gw tool_name args attempts' (attempt + 1) (Some e)
       else raise e
   | OtherError => raise e
   end).

Lemma call_from_step attempts' attempt last s :
  call_from gw tool_name args (S attempts') attempt last s
  = match attempt_once s with
    | (inl e, s') => on_failure attempts' attempt e s'
    | (inr result, s') => (inr result, s')
    end.
Proof. reflexivity. Qed.

Lemma on_rate_limit_retry attempts' attempt e c w :
  classify e = RateLimited → attempt < max_retries c →
  on_failure attempts' attempt e (c, w)
  = call_from gw tool_name args attempts' (attempt + 1) (Some e)
      (c, backed_off c w attempt []).
Proof.
  intros Hk Hlt. run_client. rewrite Hk, bool_decide_eq_true_2 by done.
  run_client. reflexivity.
Qed.

Lemma on_rate_limit_exhausted attempts' attempt e c w :
  classify e = RateLimited → ¬ attempt < max_retries c →
  on_failure attempts' attempt e (c, w)
  = (inl (rate_limit_exceeded (max_retries c)), (c, w)).
Proof.
  intros Hk Hlt. run_client. rewrite Hk, bool_decide_eq_false_2 by done.
  reflexivity.
Qed.

Lemma on_transport_retry attempts' attempt e c w :
  classify e = TransportBroken → attempt < max_retries c →
  has_client c = true →
  ∃ c' evs w',
    on_failure attempts' attempt e (c, w)
    = call_from gw tool_name args attempts' (attempt + 1) (Some e) (c', w') ∧
    has_client c' = true ∧ steady c c' ∧
    trace w' = trace w ++ ForceReconnect :: evs ++ [Backoff (retry_delay c * 2 ^ attempt)] ∧
    tool_calls w' = tool_calls w ∧
    quiet evs.
Proof.
  intros Hk Hlt Hc.
  destruct (reconnect_run c w Hc) as (c' & w' & evs & Heq & Hc' & Hst & Htr & Htc & Hq).
  exists c', evs, (backed_off c w' attempt []).
  split_and!; [|done|done| |done|done].
  - unfold bind, get_client. cbn [fst snd].
    rewrite Hk, bool_decide_eq_true_2 by done.
    unfold bind. rewrite Heq. run_client. reflexivity.
  - simpl. rewrite Htr. by rewrite <- app_assoc.
Qed.

Lemma on_transport_exhausted attempts' attempt e c w :
  classify e = TransportBroken → ¬ attempt < max_retries c →
  on_failure attempts' attempt e (c, w) = (inl e, (c, w)).
Proof.
  intros Hk Hlt. run_client. rewrite Hk, bool_decide_eq_false_2 by done.
  reflexivity.
Qed.

Lemma backoff_schedule_S delay attempt retries :
  backoff_schedule delay attempt (S retries)
  = delay * 2 ^ attempt :: backoff_schedule delay (attempt + 1) retries.
Proof.
  unfold backoff_schedule. simpl. f_equal; [by rewrite Z.add_0_r|].
  rewrite <- fmap_S_seq, <- list_fmap_compose.
  apply list_fmap_ext. intros _ k _. simpl. do 2 f_equal. lia.
Qed.

Lemma backoff_schedule_increasing delay retries : ∀ attempt,
  0 < delay → 0 ≤ attempt →
  strictly_increasing (backoff_schedule delay attempt retries).
Proof.
  induction retries as [|n IH]; intros attempt Hd Ha; [done|].
  rewrite backoff_schedule_S. destruct n as [|n]; [done|].
  rewrite backoff_schedule_S. split.
  - rewrite Z.pow_add_r, Z.pow_1_r by lia.
    assert (0 < 2 ^ attempt) by (apply Z.pow_pos_nonneg; lia). nia.
  - rewrite <- backoff_schedule_S. apply IH; lia.
Qed.

(** *** Attempts that the gateway refuses with a rate-limit signal *)

Lemma call_from_rate_limited (r : response) attempts : ∀ f attempt last c w,
  1 ≤ RateLimiter.max_requests (rate_limiter c) →
  has_client c = true ∨ on_connect gw (connects w) = None →
  attempt + Z.of_nat attempts = max_retries c + 1 →
  (1 ≤ attempts)%nat →
  (∀ k, (k < f)%nat →
        ∃ e, on_call_tool gw (tool_calls w + k) tool_name args = inl e ∧
             classify e = RateLimited) →
  ((f < attempts)%nat → on_call_tool gw (tool_calls w + f) tool_name args = inr r) →
  ∃ c' w' evs,
    call_from gw tool_name args attempts attempt last (c, w)
    = ((if bool_decide (f < attempts)%nat then inr (Some r)
        else inl (rate_limit_exceeded (max_retries c))), (c', w')) ∧
    trace w' = trace w ++ evs ∧
    backoffs evs = backoff_schedule (retry_delay c) attempt (Nat.min f (attempts - 1)) ∧
    count is_call_tool evs = S (Nat.min f (attempts - 1)) ∧
    count is_force_reconnect evs = 0%nat.
Proof.
  induction attempts as [|a IH]; intros f attempt last c w Hlim Hconn Hrange Hpos Hfail Hok;
    [lia|].
  rewrite call_from_step.
  destruct (attempt_run c w Hlim Hconn)
    as (c1 & w1 & evs1 & Heq & Hc1 & Hst1 & Htr1 & Htc1 & Hb1 & _ & Hn1 & Hf1).
  rewrite Heq.
  assert (count is_call_tool (evs1 ++ [CallTool tool_name args]) = 1%nat) as Hone.
  { rewrite count_app, Hn1. reflexivity. }
  assert (count is_force_reconnect (evs1 ++ [CallTool tool_name args]) = 0%nat) as Hnone.
  { rewrite count_app, Hf1. reflexivity. }
  assert (backoffs (evs1 ++ [CallTool tool_name args]) = []) as Hnob.
  { rewrite backoffs_app, Hb1. reflexivity. }
  destruct f as [|f].
  - (* the invocation succeeds *)
    rewrite Nat.add_0_r in Hok. rewrite Hok by lia.
    exists c1, w1, (evs1 ++ [CallTool tool_name args]).
    rewrite bool_decide_eq_true_2 by lia. split_and!; done.
  - destruct (Hfail 0%nat) as (e & He & Hk); [lia|].
    rewrite Nat.add_0_r in He. rewrite He.
    destruct Hst1 as (Hmr & Hrd & Hmx).
    destruct a as [|a].
    + (* no retry is left *)
      rewrite on_rate_limit_exhausted by (done || lia).
      exists c1, w1, (evs1 ++ [CallTool tool_name args]).
      rewrite bool_decide_eq_false_2, Hmr by lia. split_and!; done.
    + rewrite on_rate_limit_retry by (done || lia).
      destruct (IH f (attempt + 1) (Some e) c1 (backed_off c1 w1 attempt []))
        as (c' & w' & evs & Hrun & Htr & Hbk & Hn & Hfr).
      * lia.
      * by left.
      * lia.
      * lia.
      * intros k Hk'. simpl. rewrite Htc1.
        destruct (Hfail (S k)) as (e' & He' & Hk''); [lia|].
        exists e'. split; [|done]. rewrite <- He'. f_equal. lia.
      * intros Hlt. simpl. rewrite Htc1. rewrite <- Hok by lia. f_equal. lia.
      * exists c', w',
          ((evs1 ++ [CallTool tool_name args])
           ++ [Backoff (retry_delay c1 * 2 ^ attempt)] ++ evs).
        rewrite Hrun. split_and!.
        -- rewrite Hmr. repeat case_bool_decide; (done || lia).
        -- rewrite Htr. simpl. rewrite Htr1. by rewrite <- !app_assoc.
        -- rewrite backoffs_app, Hnob, backoffs_app, Hbk, Hrd.
           replace (Nat.min (S f) (S (S a) - 1)) with (S (Nat.min f (S a - 1))) by lia.
           by rewrite backoff_schedule_S.
        -- rewrite count_app, Hone, count_app, Hn.
           change (count is_call_tool [Backoff (retry_delay c1 * 2 ^ attempt)]) with 0%nat.
           lia.
        -- rewrite count_app, Hnone, count_app, Hfr. reflexivity.
Qed.

(** *** Attempts that fail because the transport is broken *)

Lemma call_from_transport (r : response) attempts : ∀ f attempt last c w,
  1 ≤ RateLimiter.max_requests (rate_limiter c) →
  has_client c = true ∨ on_connect gw (connects w) = None →
  attempt + Z.of_nat attempts = max_retries c + 1 →
  (1 ≤ attempts)%nat →
  (∀ k, (k < f)%nat →
        ∃ e, on_call_tool gw (tool_calls w + k) tool_name args = inl e ∧
             classify e = TransportBroken) →
  ((f < attempts)%nat → on_call_tool gw (tool_calls w + f) tool_name args = inr r) →
  ∃ res c' w' evs,
    call_from gw tool_name args attempts attempt last (c, w) = (res, (c', w')) ∧
    trace w' = trace w ++ evs ∧
    backoffs evs = backoff_schedule (retry_delay c) attempt (Nat.min f (attempts - 1)) ∧
    attempts_and_reconnects evs
    = retried_after_reconnect tool_name args (Nat.min f (attempts - 1)) ∧
    count is_force_reconnect evs = Nat.min f (attempts - 1) ∧
    ((f < attempts)%nat → res = inr (Some r)) ∧
    ((attempts ≤ f)%nat →
     res = match on_call_tool gw (tool_calls w + (attempts - 1)) tool_name args with
           | inl e => inl e
           | inr result => inr (Some result)
           end ∧
     ∃ e, res = inl e ∧ classify e = TransportBroken).
Proof.
  induction attempts as [|a IH]; intros f attempt last c w Hlim Hconn Hrange Hpos Hfail Hok;
    [lia|].
  rewrite call_from_step.
  destruct (attempt_run c w Hlim Hconn)
    as (c1 & w1 & evs1 & Heq & Hc1 & Hst1 & Htr1 & Htc1 & Hb1 & Ha1 & Hn1 & Hf1).
  rewrite Heq.
  assert (attempts_and_reconnects (evs1 ++ [CallTool tool_name args])
          = [CallTool tool_name args]) as Hone.
  { rewrite attempts_and_reconnects_app, Ha1. reflexivity. }
  assert (count is_force_reconnect (evs1 ++ [CallTool tool_name args]) = 0%nat) as Hnone.
  { rewrite count_app, Hf1. reflexivity. }
  assert (backoffs (evs1 ++ [CallTool tool_name args]) = []) as Hnob.
  { rewrite backoffs_app, Hb1. reflexivity. }
  destruct f as [|f].
  - (* the invocation succeeds *)
    rewrite Nat.add_0_r in Hok. rewrite Hok by lia.
    exists (inr (Some r)), c1, w1, (evs1 ++ [CallTool tool_name args]).
    split_and!; try done. lia.
  - destruct (Hfail 0%nat) as (e & He & Hk); [lia|].
    rewrite Nat.add_0_r in He. rewrite He.
    destruct Hst1 as (Hmr & Hrd & Hmx).
    destruct a as [|a].
    + (* no retry is left: the exception of this attempt is raised again *)
      rewrite on_transport_exhausted by (done || lia).
      exists (inl e), c1, w1, (evs1 ++ [CallTool tool_name args]).
      split_and!; try done; [lia|].
      intros _. simpl. rewrite Nat.add_0_r, He. eauto.
    + destruct (on_transport_retry (S a) attempt e c1 w1)
        as (c2 & evs2 & w2 & Heq2 & Hc2 & (Hmr2 & Hrd2 & Hmx2) & Htr2 & Htc2
            & Hb2 & Ha2 & Hn2 & Hf2); [done|lia|done|].
      rewrite Heq2.
      destruct (IH f (attempt + 1) (Some e) c2 w2)
        as (res & c' & w' & evs & Hrun & Htr & Hbk & Hsk & Hfr & Hres1 & Hres2).
      * lia.
      * by left.
      * lia.
      * lia.
      * intros k Hk'. rewrite Htc2, Htc1.
        destruct (Hfail (S k)) as (e' & He' & Hk''); [lia|].
        exists e'. split; [|done]. rewrite <- He'. f_equal. lia.
      * intros Hlt. rewrite Htc2, Htc1. rewrite <- Hok by lia. f_equal. lia.
      * exists res, c', w',
          ((evs1 ++ [CallTool tool_name args])
           ++ [ForceReconnect] ++ evs2
           ++ [Backoff (retry_delay c1 * 2 ^ attempt)] ++ evs).
        replace (Nat.min (S f) (S (S a) - 1)) with (S (Nat.min f (S a - 1))) by lia.
        rewrite Hrun. split_and!.
        -- done.
        -- rewrite Htr, Htr2, Htr1. by repeat (rewrite <- app_assoc; simpl).
        -- rewrite backoffs_app, Hnob, !backoffs_app, Hb2, Hbk, Hrd2, Hrd.
           by rewrite backoff_schedule_S.
        -- rewrite attempts_and_reconnects_app, Hone, !attempts_and_reconnects_app,
             Ha2, Hsk. reflexivity.
        -- rewrite count_app, Hnone, !count_app, Hf2, Hfr. reflexivity.
        -- intros Hlt. apply Hres1. lia.
        -- intros Hle. destruct Hres2 as [Hres2 Hcls]; [lia|].
           split; [|done]. rewrite Hres2, Htc2, Htc1.
           replace (S (tool_calls w) + (S a - 1))%nat
             with (tool_calls w + (S (S a) - 1))%nat by lia.
           done.
Qed.

(** C2.  When the first [failures] invocations of the tool are refused
    with a rate-limit signal (the text of the error, in lower case, holds
    [429] or [too many requests]), [call] retries [min failures max_retries]
    times; the delay before retry number [attempt] is
    [retry_delay * 2 ^ attempt], so the delays increase strictly; when the
    retries are used up it raises the [ToolError] that says the rate limit
    was exceeded, not the error of the gateway; when an invocation
    succeeds before that, its result is returned. *)
Theorem call_retries_on_rate_limit (c : t) (w : world) (failures : nat) (r : response) :
  1 ≤ RateLimiter.max_requests (rate_limiter c) →
  has_client c = true ∨ on_connect gw (connects w) = None →
  0 ≤ max_retries c →
  0 < retry_delay c →
  (∀ k, (k < failures)%nat →
        ∃ e, on_call_tool gw (tool_calls w + k) tool_name args = inl e ∧
             is_rate_limit (lower (exn_text e)) = true) →
  (Z.of_nat failures ≤ max_retries c →
   on_call_tool gw (tool_calls w + failures) tool_name args = inr r) →
  let retries := Nat.min failures (Z.to_nat (max_retries c)) in
  ∃ c' w' evs,
    call gw tool_name args (c, w)
    = ((if bool_decide (Z.of_nat failures ≤ max_retries c) then inr (Some r)
        else inl (mk_exn "ToolError"
                    ("Rate limit exceeded after " +:+ pretty (max_retries c)
                     +:+ " retries. Please try again later.") false)),
       (c', w')) ∧
    trace w' = trace w ++ evs ∧
    count is_call_tool evs = S retries ∧
    backoffs evs = (λ attempt : nat, retry_delay c * 2 ^ Z.of_nat attempt) <$> seq 0 retries ∧
    strictly_increasing (backoffs evs) ∧
    count is_force_reconnect evs = 0%nat.
Proof.
  intros Hlim Hconn Hmr Hrd Hfail Hok retries.
  destruct (call_from_rate_limited r (Z.to_nat (max_retries c + 1)) failures 0 None c w)
    as (c' & w' & evs & Hrun & Htr & Hbk & Hn & Hfr); try done; try lia.
  - intros k Hk. destruct (Hfail k Hk) as (e & He & Hsig).
    exists e. split; [done|]. unfold classify. by rewrite Hsig.
  - intros Hlt. apply Hok. lia.
  - replace (Nat.min failures (Z.to_nat (max_retries c + 1) - 1)) with retries in *
      by (unfold retries; lia).
    exists c', w', evs. split_and!; try done.
    + unfold call. run_client. rewrite Hrun. f_equal.
      repeat case_bool_decide; (done || lia).
    + rewrite Hbk. by apply backoff_schedule_increasing.
Qed.

(** C3.  When the first [failures] invocations of the tool fail because
    the transport is broken, [call] retries [min failures max_retries]
    times and every retry comes after exactly one forced reconnection: the
    attempts and the forced reconnections alternate.  When an invocation
    succeeds before the retries are used up its result is returned and no
    error reaches the caller; otherwise the exception of the last attempt
    is raised again, as it is. *)
Theorem call_reconnects_on_transport_failure
    (c : t) (w : world) (failures : nat) (r : response) :
  1 ≤ RateLimiter.max_requests (rate_limiter c) →
  has_client c = true ∨ on_connect gw (connects w) = None →
  0 ≤ max_retries c →
  (∀ k, (k < failures)%nat →
        ∃ e, on_call_tool gw (tool_calls w + k) tool_name args = inl e ∧
             classify e = TransportBroken) →
  (Z.of_nat failures ≤ max_retries c →
   on_call_tool gw (tool_calls w + failures) tool_name args = inr r) →
  let retries := Nat.min failures (Z.to_nat (max_retries c)) in
  ∃ res c' w' evs,
    call gw tool_name args (c, w) = (res, (c', w')) ∧
    trace w' = trace w ++ evs ∧
    attempts_and_reconnects evs = retried_after_reconnect tool_name args retries ∧
    count is_force_reconnect evs = retries ∧
    (Z.of_nat failures ≤ max_retries c → res = inr (Some r)) ∧
    (max_retries c < Z.of_nat failures →
     ∃ e, on_call_tool gw (tool_calls w + Z.to_nat (max_retries c)) tool_name args = inl e ∧
          res = inl e).
Proof.
  intros Hlim Hconn Hmr Hfail Hok retries.
  destruct (call_from_transport r (Z.to_nat (max_retries c + 1)) failures 0 None c w)
    as (res & c' & w' & evs & Hrun & Htr & _ & Hsk & Hfr & Hres1 & Hres2);
    try done; try lia.
  - intros Hlt. apply Hok. lia.
  - replace (Nat.min failures (Z.to_nat (max_retries c + 1) - 1)) with retries in *
      by (unfold retries; lia).
    exists res, c', w', evs. split_and!; try done.
    + intros Hle. apply Hres1. lia.
    + intros Hgt. destruct Hres2 as (Hres2 & e & He & _); [lia|].
      replace (Z.to_nat (max_retries c + 1) - 1)%nat
        with (Z.to_nat (max_retries c)) in Hres2 by lia.
      exists e. split; [|done]. rewrite He in Hres2. revert Hres2.
      destruct (on_call_tool gw (tool_calls w + Z.to_nat (max_retries c)) tool_name args);
        intros ?; by simplify_eq.
Qed.

End client_call.

(* ===================================================================== *)
(** ** KiteMCPClient: the session                                         *)
(* ===================================================================== *)

Section client_session.
Import Py KiteMCPClient.

Lemma restore_session_absent c : restore_session c None = (c, false).
Proof. reflexivity. Qed.

Lemma restore_session_idempotent c d :
  restore_session (restore_session c d).1 d = restore_session c d.
Proof.
  destruct d as [[saved|]|]; try done.
  unfold restore_session.
  destruct (decide (saved = ∅)) as [Hempty|Hsome]; cbn [fst]; [done|].
  unfold set_headers. simpl. by rewrite (assoc_L (∪)), (idemp_L (∪)).
Qed.

Lemma clear_session_idempotent c d :
  clear_session (clear_session c d).1 (clear_session c d).2 = clear_session c d.
Proof. by destruct d. Qed.

(** C6.  From any state of the client and of the disk, [clear_session]
    and then [restore_session] leave the headers at the baseline (the
    [User-Agent] alone, no key of the earlier session), no client, no
    transport and no session file, and [restore_session] answers [False];
    both operations are idempotent, and both leave a client without a
    session as it is. *)
Theorem clear_then_restore_is_unauthenticated (c : t) (d : option file) :
  let cleared := clear_session c d in
  let restored := restore_session cleared.1 cleared.2 in
  headers restored.1 = {[ "User-Agent" := "KiteInfi-Backend/1.0" ]} ∧
  dom (headers restored.1) = {[ "User-Agent" ]} ∧
  has_client restored.1 = false ∧
  has_transport restored.1 = false ∧
  cleared.2 = None ∧
  restored.2 = false ∧
  clear_session cleared.1 cleared.2 = cleared ∧
  restore_session restored.1 cleared.2 = restored ∧
  (∀ c' d', restore_session (restore_session c' d').1 d' = restore_session c' d') ∧
  (∀ rl retries delay,
     let unauthenticated := mk user_agent false false rl retries delay in
     clear_session unauthenticated None = (unauthenticated, None) ∧
     restore_session unauthenticated None = (unauthenticated, false)).
Proof.
  assert (clear_session c d = (set_connection (set_headers c user_agent) false false, None))
    as -> by (by destruct d).
  cbn [fst snd]. rewrite restore_session_absent. cbn [fst snd].
  split_and!;
    first [ done
          | apply restore_session_idempotent
          | cbn [headers set_connection set_headers]; apply dom_singleton_L ].
Qed.

End client_session.

(* ===================================================================== *)
(** ** MasterAgent: validation and execution                              *)
(* ===================================================================== *)

Section master_agent.
Import Py Eff MasterAgent.

Ltac run_master :=
  repeat (progress (unfold agent_run, bind, ret, raise, try_except, get, put;
                    cbn [fst snd])).

(** *** [prune] keeps the declared arguments and no other *)

Lemma prune_fold_lookup (params : gmap string string) (keys : list string) :
  ∀ (args : kwargs) (k : string),
    foldl (λ args k, if decide (k ∈ dom params) then args else delete k args) args keys !! k
    = if decide (k ∈ dom params) then args !! k
      else if decide (k ∈ keys) then None else args !! k.
Proof.
  induction keys as [|key keys IH]; intros args k.
  - cbn [foldl]. destruct (decide (k ∈ dom params)); [done|].
    rewrite decide_False; [done|]. apply not_elem_of_nil.
  - cbn [foldl]. rewrite IH. destruct (decide (k ∈ dom params)) as [Hk|Hk].
    + destruct (decide (key ∈ dom params)); [done|].
      rewrite lookup_delete_ne; [done|]. intros ->. done.
    + destruct (decide (k ∈ keys)) as [Hin|Hin].
      * rewrite decide_True; [done|]. by apply list_elem_of_further.
      * destruct (decide (key = k)) as [->|Hne].
        -- rewrite (decide_True (P := k ∈ k :: keys)) by apply list_elem_of_here.
           rewrite (decide_False (P := k ∈ dom params)) by done.
           by rewrite lookup_delete_eq.
        -- rewrite (decide_False (P := k ∈ key :: keys)).
           ++ destruct (decide (key ∈ dom params)); [done|].
              by rewrite lookup_delete_ne.
           ++ intros [->|?]%elem_of_cons; done.
Qed.

Lemma prune_lookup (params : gmap string string) (args : kwargs) (k : string) :
  prune params args !! k = if decide (k ∈ dom params) then args !! k else None.
Proof.
  unfold prune. rewrite prune_fold_lookup.
  destruct (decide (k ∈ dom params)); [done|].
  destruct (decide (k ∈ (map_to_list args).*1)) as [Hin|Hin]; [done|].
  destruct (args !! k) as [v|] eqn:Hv; [|done].
  exfalso. apply Hin. apply list_elem_of_fmap. exists (k, v).
  split; [done|]. by apply elem_of_map_to_list.
Qed.

(** *** The catalog that [__aenter__] builds names the tools of the agents *)

Lemma find_item_spec catalog agent_name tool_name it :
  find_item catalog agent_name tool_name = Some it →
  it ∈ catalog ∧ item_agent it = agent_name ∧ item_tool it = tool_name.
Proof.
  intros Hfind. apply find_some in Hfind as [Hin Heq].
  apply andb_prop in Heq as [Ha Ht].
  apply String.eqb_eq in Ha, Ht. split; [|done].
  by apply list_elem_of_In.
Qed.

Lemma find_item_none catalog agent_name tool_name :
  find_item catalog agent_name tool_name = None ↔ ¬ in_catalog catalog agent_name tool_name.
Proof.
  split.
  - intros Hnone (it & Hin & Ha & Ht).
    apply list_elem_of_In in Hin.
    pose proof (find_none _ _ Hnone it Hin) as Hno. simpl in Hno.
    rewrite Ha, Ht, !String.eqb_refl in Hno. done.
  - intros Hno. destruct (find_item catalog agent_name tool_name) as [it|] eqn:Hfind; [|done].
    exfalso. apply Hno. exists it. by apply find_item_spec.
Qed.

Lemma catalog_names_tools (agents : gmap string (list tool_spec)) it :
  it ∈ _build_catalog agents →
  ∃ tools, agents !! item_agent it = Some tools ∧ _has_tool tools (item_tool it) = true.
Proof.
  unfold _build_catalog. rewrite merge_sort_Permutation.
  intros ([agent_name tools] & Hit & Hagent)%list_elem_of_bind.
  apply elem_of_map_to_list in Hagent.
  apply list_elem_of_fmap in Hit as (t & -> & Ht). simpl.
  exists tools. split; [done|].
  unfold _has_tool. apply existsb_exists. exists t.
  split; [by apply list_elem_of_In|apply String.eqb_refl].
Qed.

(** *** [execute] *)

Lemma agent_run_does co i history :
  agent_run co i history = (run co history i, history ++ [i]).
Proof. run_master. by destruct (run co history i). Qed.

Lemma execute_returns m co agent_name tool_name kw history :
  ∃ res history', execute m co agent_name tool_name kw history = (inr res, history').
Proof.
  unfold execute. destruct (initialized m); simpl; [|by eexists _, _].
  destruct (agents m !! agent_name) as [tools|]; [|by eexists _, _].
  destruct (_has_tool tools tool_name); simpl; [|by eexists _, _].
  unfold try_except. rewrite agent_run_does.
  destruct (run co history _); by eexists _, _.
Qed.

Lemma execute_known m co agent_name tool_name kw history tools :
  initialized m = true →
  agents m !! agent_name = Some tools →
  _has_tool tools tool_name = true →
  execute m co agent_name tool_name kw history
  = (inr (match run co history (mk_invocation agent_name tool_name kw) with
          | inl e => error (exn_text e)
          | inr res => res
          end),
     history ++ [mk_invocation agent_name tool_name kw]).
Proof.
  intros Hinit Hagent Htool. unfold execute. rewrite Hinit, Hagent, Htool. simpl.
  unfold try_except. rewrite agent_run_does.
  by destruct (run co history _).
Qed.

Lemma valid_selection_known catalog agent_name tool_name args :
  agent_name ≠ EmptyString → tool_name ≠ EmptyString →
  in_catalog catalog agent_name tool_name →
  ∃ it, find_item catalog agent_name tool_name = Some it ∧
        _is_valid_selection catalog (mk_step agent_name tool_name args)
        = (true, mk_step agent_name tool_name (prune (item_parameters it) args)).
Proof.
  intros Ha Ht Hin.
  destruct (find_item catalog agent_name tool_name) as [it|] eqn:Hfind.
  - exists it. split; [done|]. unfold _is_valid_selection. simpl.
    destruct agent_name; [done|]. destruct tool_name; [done|]. simpl.
    by rewrite Hfind.
  - by apply find_item_none in Hfind.
Qed.

Lemma valid_selection_unknown catalog agent_name tool_name args :
  ¬ in_catalog catalog agent_name tool_name →
  _is_valid_selection catalog (mk_step agent_name tool_name args)
  = (false, mk_step agent_name tool_name args).
Proof.
  intros Hno. apply find_item_none in Hno.
  unfold _is_valid_selection. simpl. rewrite Hno.
  by destruct (negb _ || negb _).
Qed.

(** C7.  When the [run] of the agent raises, [execute] answers with
    [{status: error, message: str(e)}]; and whatever its arguments,
    [execute] returns a result: no exception leaves it. *)
Theorem execute_contains_exceptions (m : t) (co : collaborators)
    (agent_name tool_name : string) (kw : kwargs) (history : list invocation)
    (tools : list tool_spec) (e : exn) :
  initialized m = true →
  agents m !! agent_name = Some tools →
  _has_tool tools tool_name = true →
  run co history (mk_invocation agent_name tool_name kw) = inl e →
  execute m co agent_name tool_name kw history
  = (inr (mk_result (Some "error") (Some (exn_text e)) None None),
     history ++ [mk_invocation agent_name tool_name kw]) ∧
  ∀ m' co' agent_name' tool_name' kw' history',
    ∃ res history'',
      execute m' co' agent_name' tool_name' kw' history' = (inr res, history'').
Proof.
  intros Hinit Hagent Htool Hraise. split.
  - rewrite (execute_known m co agent_name tool_name kw history tools) by done.
    by rewrite Hraise.
  - intros. apply execute_returns.
Qed.

(** C5.  For a selection whose agent and tool are in the catalog,
    validation leaves in [arguments] the keys that the tool declares, with
    their values, and no other key; the agent then runs with these
    arguments. *)
Theorem selection_arguments_pruned (m : t) (co : collaborators) (user_query : string)
    (agent_name tool_name : string) (args : option kwargs)
    (plan : option (list plan_step)) (it : item) (history : list invocation) :
  initialized m = true →
  router_enabled m = true →
  catalog m = _build_catalog (agents m) →
  route co user_query
  = inr (Some (mk_selection (Some agent_name) (Some tool_name) args plan)) →
  agent_name ≠ EmptyString →
  tool_name ≠ EmptyString →
  find_item (catalog m) agent_name tool_name = Some it →
  let pruned := prune (item_parameters it) (or_empty args) in
  (∀ key, pruned !! key
          = if decide (key ∈ dom (item_parameters it)) then or_empty args !! key else None) ∧
  ∃ res,
    route_query m co user_query history
    = (inr (mk_routed (status res) (message res)
                      (Some ([mk_step agent_name tool_name pruned], [_compact_result res]))),
       history ++ [mk_invocation agent_name tool_name pruned]).
Proof.
  intros Hinit Hrouter Hcat Hroute Ha Ht Hfind pruned.
  split; [intros key; apply prune_lookup|].
  destruct (find_item_spec _ _ _ _ Hfind) as (Hin & Hia & Hit).
  rewrite Hcat in Hin.
  destruct (catalog_names_tools _ _ Hin) as (tools & Hagent & Htool).
  rewrite Hia in Hagent. rewrite Hit in Htool.
  unfold route_query. rewrite Hrouter, Hroute. simpl.
  destruct agent_name as [|a agent_name]; [done|].
  destruct tool_name as [|t tool_name]; [done|]. simpl.
  unfold _is_valid_selection. simpl. rewrite Hfind. simpl.
  unfold bind.
  rewrite (execute_known m co _ _ _ history tools) by done.
  eexists. reflexivity.
Qed.

(** *** Plans *)

Lemma run_plan_stops m co bad plan_after : ∀ plan_before steps results history,
  initialized m = true →
  catalog m = _build_catalog (agents m) →
  Forall (λ s, ps_agent s ≠ EmptyString ∧ ps_tool s ≠ EmptyString ∧
               in_catalog (catalog m) (ps_agent s) (ps_tool s)) plan_before →
  ¬ in_catalog (catalog m) (ps_agent bad) (ps_tool bad) →
  run_plan m co (plan_before ++ bad :: plan_after) steps results history
  = (inr (mk_routed (Some "error") (Some "Router produced invalid step.") None),
     history ++ runs_of (validated (catalog m) <$> plan_before)).
Proof.
  induction plan_before as [|s plan_before IH];
    intros steps results history Hinit Hcat Hknown Hbad.
  - simpl. rewrite valid_selection_unknown by done. simpl.
    by rewrite app_nil_r.
  - apply Forall_cons in Hknown as [(Ha & Ht & Hin) Hknown].
    destruct (valid_selection_known _ _ _ (or_empty (ps_arguments s)) Ha Ht Hin)
      as (it & Hfind & Hvalid).
    destruct (find_item_spec _ _ _ _ Hfind) as (Hit & Hia & Hitool).
    rewrite Hcat in Hit.
    destruct (catalog_names_tools _ _ Hit) as (tools & Hagent & Htool).
    rewrite Hia in Hagent. rewrite Hitool in Htool.
    cbn [run_plan app]. rewrite Hvalid. cbn [negb agent tool arguments].
    unfold bind.
    rewrite (execute_known m co _ _ _ history tools) by done.
    rewrite IH by done.
    f_equal. cbn [fmap list_fmap runs_of]. unfold validated, step_of.
    rewrite Hvalid. cbn [snd agent tool arguments].
    by rewrite <- app_assoc.
Qed.

(** C4, as the code has it.  When a step of the plan names a pair that is
    not in the catalog, [route_query] answers with the error
    [Router produced invalid step.]; that step and the steps after it do
    not run; the steps before it have run, in order, with their pruned
    arguments. *)
Theorem invalid_plan_step_stops_plan (m : t) (co : collaborators) (user_query : string)
    (plan_before : list plan_step) (bad : plan_step) (plan_after : list plan_step)
    (history : list invocation) :
  initialized m = true →
  router_enabled m = true →
  catalog m = _build_catalog (agents m) →
  route co user_query
  = inr (Some (mk_selection None None None (Some (plan_before ++ bad :: plan_after)))) →
  Forall (λ s, ps_agent s ≠ EmptyString ∧ ps_tool s ≠ EmptyString ∧
               in_catalog (catalog m) (ps_agent s) (ps_tool s)) plan_before →
  ¬ in_catalog (catalog m) (ps_agent bad) (ps_tool bad) →
  route_query m co user_query history
  = (inr (mk_routed (Some "error") (Some "Router produced invalid step.") None),
     history ++ runs_of (validated (catalog m) <$> plan_before)).
Proof.
  intros Hinit Hrouter Hcat Hroute Hknown Hbad.
  unfold route_query. rewrite Hrouter, Hroute. simpl.
  unfold route_plan. simpl. by apply run_plan_stops.
Qed.

End master_agent.

(* ===================================================================== *)
(** ** The scenarios                                                      *)
(* ===================================================================== *)

Lemma find_item_in_catalog catalog agent_name tool_name it :
  MasterAgent.find_item catalog agent_name tool_name = Some it →
  MasterAgent.in_catalog catalog agent_name tool_name.
Proof. intros Hfind. exists it. by apply find_item_spec. Qed.

(** The gateway refuses every invocation: five retries, after 2, 4, 8, 16
    and 32 seconds, then the [ToolError]. *)
Lemma call_retries_on_rate_limit_witness :
  ∃ c' w' evs,
    KiteMCPClient.call Scenario.throttling "get_profile" ∅ (Scenario.client, Scenario.world)
    = (inl (Py.mk_exn "ToolError"
              "Rate limit exceeded after 5 retries. Please try again later." false),
       (c', w')) ∧
    KiteMCPClient.trace w' = evs ∧
    KiteMCPClient.count KiteMCPClient.is_call_tool evs = 6%nat ∧
    KiteMCPClient.backoffs evs = [2000; 4000; 8000; 16000; 32000].
Proof.
  destruct (call_retries_on_rate_limit Scenario.throttling "get_profile" ∅
              Scenario.client Scenario.world 7 Scenario.profile)
    as (c' & w' & evs & Hrun & Htrace & Hcalls & Hbackoffs & _ & _).
  - simpl. lia.
  - right. reflexivity.
  - simpl. lia.
  - simpl. lia.
  - intros k _. exists Scenario.too_many_requests. split; reflexivity.
  - simpl. lia.
  - exists c', w', evs. split_and!; [exact Hrun|exact Htrace|exact Hcalls|exact Hbackoffs].
Defined.

(** The transport breaks three times and [max_retries] is 5: three forced
    reconnections, and the fourth attempt returns its result. *)
Lemma call_reconnects_on_transport_failure_witness :
  ∃ c' w' evs,
    KiteMCPClient.call Scenario.broken_thrice "get_profile" ∅
                       (Scenario.client, Scenario.world)
    = (inr (Some Scenario.profile), (c', w')) ∧
    KiteMCPClient.trace w' = evs ∧
    KiteMCPClient.count KiteMCPClient.is_force_reconnect evs = 3%nat ∧
    KiteMCPClient.attempts_and_reconnects evs
    = [KiteMCPClient.CallTool "get_profile" ∅; KiteMCPClient.ForceReconnect;
       KiteMCPClient.CallTool "get_profile" ∅; KiteMCPClient.ForceReconnect;
       KiteMCPClient.CallTool "get_profile" ∅; KiteMCPClient.ForceReconnect;
       KiteMCPClient.CallTool "get_profile" ∅].
Proof.
  destruct (call_reconnects_on_transport_failure Scenario.broken_thrice "get_profile" ∅
              Scenario.client Scenario.world 3 Scenario.profile)
    as (res & c' & w' & evs & Hrun & Htrace & Hshape & Hcount & Hres & _).
  - simpl. lia.
  - right. reflexivity.
  - simpl. lia.
  - intros k Hk. exists Scenario.connection_reset. split; [|reflexivity].
    simpl. destruct k as [|[|[|k]]]; (reflexivity || lia).
  - intros _. reflexivity.
  - exists c', w', evs. rewrite Hres in Hrun by (simpl; lia).
    split_and!; [exact Hrun|exact Htrace|exact Hcount|exact Hshape].
Defined.

(** The agent raises [Please log in first]: [execute] answers with it. *)
Lemma execute_contains_exceptions_witness :
  MasterAgent.execute Scenario.master Scenario.failing_agent "portfolio" "get_holdings" ∅ []
  = (inr (MasterAgent.mk_result (Some "error") (Some "Please log in first") None None),
     [MasterAgent.mk_invocation "portfolio" "get_holdings" ∅]).
Proof.
  exact (proj1 (execute_contains_exceptions
                  Scenario.master Scenario.failing_agent "portfolio" "get_holdings" ∅ []
                  [MasterAgent.mk_tool_spec "get_holdings" "Holdings" ∅;
                   MasterAgent.mk_tool_spec "get_positions" "Positions" ∅]
                  Scenario.session_expired
                  eq_refl eq_refl eq_refl eq_refl)).
Defined.

(** [{agent: portfolio, tool: get_holdings, arguments: {bogus: x}}], where
    [get_holdings] takes no parameter: the agent runs with [{}]. *)
Lemma selection_arguments_pruned_witness :
  ∃ res,
    MasterAgent.route_query Scenario.master Scenario.bogus_argument "show my holdings" []
    = (inr (MasterAgent.mk_routed
              (MasterAgent.status res) (MasterAgent.message res)
              (Some ([MasterAgent.mk_step "portfolio" "get_holdings" ∅],
                     [MasterAgent._compact_result res]))),
       [MasterAgent.mk_invocation "portfolio" "get_holdings" ∅]).
Proof.
  destruct (selection_arguments_pruned
              Scenario.master Scenario.bogus_argument "show my holdings"
              "portfolio" "get_holdings" (Some {[ "bogus" := Py.VStr "x" ]}) None
              (MasterAgent.mk_item "portfolio" "get_holdings" "Holdings" ∅) [])
    as [_ [res Hrun]]; [reflexivity..|discriminate|discriminate|reflexivity|].
  exists res. exact Hrun.
Defined.

Example corrupted_plan_runs_first_step :
  MasterAgent.route_query Scenario.master Scenario.plans_unknown_tool "sell everything" []
  = (inr (MasterAgent.mk_routed (Some "error") (Some "Router produced invalid step.") None),
     [MasterAgent.mk_invocation "portfolio" "get_holdings" ∅]).
Proof. reflexivity. Qed.

(** The plan [get_holdings; sell_everything] is turned down, and
    [get_holdings] has run. *)
Lemma invalid_plan_step_stops_plan_witness :
  MasterAgent.route_query Scenario.master Scenario.plans_unknown_tool "sell everything" []
  = (inr (MasterAgent.mk_routed (Some "error") (Some "Router produced invalid step.") None),
     [MasterAgent.mk_invocation "portfolio" "get_holdings" ∅]).
Proof.
  apply (invalid_plan_step_stops_plan
           Scenario.master Scenario.plans_unknown_tool "sell everything"
           [MasterAgent.mk_plan_step "portfolio" "get_holdings" None]
           (MasterAgent.mk_plan_step "portfolio" "sell_everything" None) [] []);
    try reflexivity.
  - constructor; [|constructor]. split_and!; [discriminate..|].
    by eapply find_item_in_catalog.
  - by apply find_item_none.
Defined.

(** C4, as it is stated, fails: a plan whose second step is unknown is
    turned down after its first step has run. *)
Lemma plan_with_unknown_step_is_not_rejected_in_full :
  ¬ MasterAgent.rejects_in_full Scenario.master Scenario.plans_unknown_tool
      "sell everything".
Proof.
  intros Hclaim.
  destruct (Hclaim Scenario.corrupted_plan [] eq_refl) as (res & Hrun & _).
  - apply Exists_cons_tl, Exists_cons_hd. by apply find_item_none.
  - rewrite corrupted_plan_runs_first_step in Hrun. discriminate.
Qed.

(* ===================================================================== *)
(** ** KiteChatbot: the memory                                            *)
(* ===================================================================== *)

Section chatbot_memory.
Import Py Eff KiteChatbot.

Lemma last_turns_drop {A} (n : Z) (l : list A) :
  0 < n → last_turns n l = drop (length l - Z.to_nat n) l.
Proof.
  intros Hn. unfold last_turns, slice_from.
  rewrite bool_decide_eq_true_2 by lia. f_equal. lia.
Qed.

Lemma compress_drop (memory : list turn) (max_turns : Z) :
  0 < max_turns →
  _maybe_compress_memory memory max_turns
  = drop (length memory - Z.to_nat max_turns) memory.
Proof.
  intros Hn. unfold _maybe_compress_memory. case_bool_decide as Hlen.
  - by apply last_turns_drop.
  - replace (length memory - Z.to_nat max_turns)%nat with 0%nat by lia. done.
Qed.

(** Keeping the last [n] of the last [n] of [l1], followed by [l2], keeps
    the last [n] of [l1 ++ l2]. *)
Lemma drop_last_app {A} (n : nat) (l1 l2 : list A) :
  let kept := drop (length l1 - n) l1 in
  drop (length (kept ++ l2) - n) (kept ++ l2)
  = drop (length (l1 ++ l2) - n) (l1 ++ l2).
Proof.
  simpl. rewrite !drop_app, drop_drop, !length_app, !length_drop.
  f_equal; f_equal; lia.
Qed.

Lemma remember_all_drop turns : ∀ (memory : list turn) (t : turn),
  remember_all memory (t :: turns)
  = drop (length (memory ++ t :: turns) - 20) (memory ++ t :: turns).
Proof.
  induction turns as [|t' turns IH]; intros memory t.
  - simpl. unfold _remember. destruct t as [r c]. simpl.
    by rewrite compress_drop by lia.
  - change (remember_all memory (t :: t' :: turns))
      with (remember_all (_remember memory (role t) (content t)) (t' :: turns)).
    rewrite IH. unfold _remember. destruct t as [r c]. simpl role. simpl content.
    rewrite compress_drop by lia.
    change (Z.to_nat 20) with 20%nat.
    rewrite (drop_last_app 20 (memory ++ [mk_turn r c]) (t' :: turns)).
    by rewrite <- app_assoc.
Qed.

(** C8.  After an append the memory holds at most [max_turns] turns: the
    last [max_turns] turns of the memory with the new turn at its end, in
    their order; exactly [max_turns] of them when there were more.
    [_remember] does this with the bound 20, so that after every append of
    a sequence the memory is the last 20 turns of all there was. *)
Theorem remember_bounds_memory (max_turns : Z) (memory : list turn)
    (t : turn) (turns : list turn) :
  0 < max_turns →
  let appended := memory ++ [t] in
  let kept := _maybe_compress_memory appended max_turns in
  Z.of_nat (length kept) ≤ max_turns ∧
  kept = drop (length appended - Z.to_nat max_turns) appended ∧
  (Z.of_nat (length kept) = max_turns ∨ kept = appended) ∧
  _remember memory (role t) (content t) = _maybe_compress_memory appended 20 ∧
  remember_all memory (t :: turns)
  = drop (length (memory ++ t :: turns) - 20) (memory ++ t :: turns) ∧
  (length (remember_all memory (t :: turns)) ≤ 20)%nat.
Proof.
  intros Hn appended kept.
  assert (kept = drop (length appended - Z.to_nat max_turns) appended) as Hkept
    by (by apply compress_drop).
  split_and!.
  - rewrite Hkept, length_drop. lia.
  - done.
  - destruct (decide (Z.of_nat (length appended) ≤ max_turns)) as [Hle|Hgt].
    + right. rewrite Hkept.
      replace (length appended - Z.to_nat max_turns)%nat with 0%nat by lia. done.
    + left. rewrite Hkept, length_drop. lia.
  - by destruct t.
  - apply remember_all_drop.
  - rewrite remember_all_drop, length_drop. lia.
Qed.

Lemma remember_bounds_memory_witness :
  let memory := replicate 20 (mk_turn "user" "hello") in
  let t := mk_turn "assistant" "Hello!" in
  _remember memory "assistant" "Hello!"
  = replicate 19 (mk_turn "user" "hello") ++ [t].
Proof.
  intros memory t.
  destruct (remember_bounds_memory 20 memory t []) as (_ & Hkept & _);
    [lia|].
  exact Hkept.
Defined.

End chatbot_memory.

(* ===================================================================== *)
(** ** KiteChatbot: one turn                                              *)
(* ===================================================================== *)

Section chatbot_turn.
Import Py Eff KiteChatbot.

Ltac run_bot :=
  repeat (progress (unfold called, yield, remember, get_memory, bind, ret, raise, get, put;
                    cbn [fst snd memory calls yielded])).

Lemma blank_strip (user_input : string) :
  is_blank user_input = true → strip user_input = EmptyString.
Proof.
  unfold strip. induction user_input as [|c rest IH]; [done|].
  simpl. intros [Hc Hrest]%andb_prop. rewrite Hc. by apply IH.
Qed.

Lemma stream_tokens_run tokens : ∀ full_answer st,
  ∃ answer,
    stream_tokens tokens full_answer st
    = (inr answer, mk_state (memory st) (calls st)
                            (yielded st ++ snapshots (memory st) tokens)).
Proof.
  induction tokens as [|tok tokens IH]; intros full_answer st.
  - exists full_answer. simpl. run_bot. rewrite app_nil_r. by destruct st.
  - simpl. run_bot.
    destruct (IH (full_answer +:+ tok)
                 (mk_state (memory st) (calls st)
                           (yielded st ++ [mk_suspension tok (memory st)])))
      as (answer & ->).
    exists answer. simpl. by rewrite <- app_assoc.
Qed.

Lemma stream_run co r st :
  ∃ res,
    stream co r st
    = (res, mk_state (memory st) (calls st ++ [StreamLLM r])
                     (yielded st ++ snapshots (memory st) (_stream_llm co r).1)).
Proof.
  unfold stream. run_bot. destruct (_stream_llm co r) as [tokens failure].
  run_bot.
  destruct (stream_tokens_run tokens EmptyString
              (mk_state (memory st) (calls st ++ [StreamLLM r]) (yielded st)))
    as (answer & ->).
  simpl. destruct failure; by eexists.
Qed.

Lemma snapshots_lookup mem tokens k s :
  snapshots mem tokens !! k = Some s → memory_then s = mem.
Proof.
  unfold snapshots. rewrite list_lookup_fmap.
  destruct (tokens !! k); intros [= <-]. done.
Qed.

(** [_rewrite_query] returns; it leaves memory and tokens alone. *)
Lemma rewrite_run co query st :
  ∃ cs,
    _rewrite_query co query st
    = (inr (search_query_of co query (memory st)),
       mk_state (memory st) (calls st ++ cs) (yielded st)).
Proof.
  unfold search_query_of, _rewrite_query. run_bot.
  destruct (memory st) as [|m mem] eqn:Hmem.
  { exists []. simpl. rewrite app_nil_r, <- Hmem. by destruct st. }
  destruct (negb _ && _).
  { exists []. simpl. rewrite app_nil_r, <- Hmem. by destruct st. }
  run_bot. exists [RewriteLLM (history_of (m :: mem)) query].
  destruct (rewrite_llm co _ query) as [e|completion]; simpl; rewrite ?Hmem.
  - done.
  - case_bool_decide; done.
Qed.

Lemma cancelled_in_snapshots (res : exn + unit) mem cs toks final k kept :
  memory_if_cancelled (res, mk_state final cs (snapshots mem toks)) k = Some kept →
  kept = mem.
Proof.
  unfold memory_if_cancelled. simpl.
  destruct (snapshots mem toks !! k) as [s|] eqn:Hs; intros [= <-].
  by apply snapshots_lookup in Hs.
Qed.

(** C10.  On an input that is empty or holds white space only,
    [chat_stream] yields the empty token once and returns: nothing was
    classified, no LLM and no dispatcher was called, and the memory is
    what it was. *)
Theorem blank_input_yields_one_empty_token (bot : t) (co : collaborators)
    (user_input : string) (memory : list turn) :
  is_blank user_input = true →
  turn_of bot co user_input memory
  = (inr tt, mk_state memory [] [mk_suspension EmptyString memory]).
Proof.
  intros Hblank. unfold turn_of, chat_stream.
  by rewrite (blank_strip _ Hblank).
Qed.

(** C9, as the code has it.  When the consumer stops at a token of a
    turn: if the message was routed with success and is narrated, the
    memory is what it was before the turn; if the message is an
    acknowledgment or out of scope, or if the dispatcher answered neither
    success nor error, the user turn has been committed before the
    stream started, and the assistant turn has not. *)
Theorem cancelled_turn_memory (bot : t) (co : collaborators) (user_input : string)
    (memory : list turn) (k : nat) (kept : list turn) :
  strip user_input ≠ EmptyString →
  memory_if_cancelled (turn_of bot co user_input memory) k = Some kept →
  (needs_routing (_classify_query user_input) = false →
   kept = _remember memory user user_input) ∧
  (∀ routed,
     needs_routing (_classify_query user_input) = true →
     route_query co (search_query_of co user_input memory) = inr routed →
     (MasterAgent.routed_status routed = Some "success" → narrate bot = true →
      kept = memory) ∧
     (MasterAgent.routed_status routed ≠ Some "success" →
      MasterAgent.routed_status routed ≠ Some "error" →
      kept = _remember memory user user_input)).
Proof.
  intros Hinput. unfold turn_of, chat_stream.
  destruct (strip user_input) as [|c rest] eqn:Hstrip; [done|].
  run_bot. destruct (needs_routing (_classify_query user_input)) eqn:Hclass; simpl.
  - (* routed *)
    match goal with |- context [_rewrite_query co user_input ?st] =>
      destruct (rewrite_run co user_input st) as (cs & ->)
    end.
    run_bot. intros Hcancel. split; [done|]. intros routed _ Hroute.
    rewrite Hroute in Hcancel.
    split.
    + intros Hok Hnarrate. rewrite Hok, Hnarrate in Hcancel.
      rewrite bool_decide_eq_false_2, bool_decide_eq_true_2 in Hcancel by done.
      run_bot.
      match type of Hcancel with context [stream co ?r ?st] =>
        destruct (stream_run co r st) as (res & Hrun); rewrite Hrun in Hcancel
      end.
      destruct res as [e|answer]; run_bot; by apply cancelled_in_snapshots in Hcancel.
    + intros Hno Hne.
      rewrite !bool_decide_eq_false_2 in Hcancel by done.
      run_bot.
      match type of Hcancel with context [stream co ?r ?st] =>
        destruct (stream_run co r st) as (res & Hrun); rewrite Hrun in Hcancel
      end.
      destruct res as [e|answer]; run_bot; by apply cancelled_in_snapshots in Hcancel.
  - (* not routed *)
    intros Hcancel. split; [|done]. intros _.
    match type of Hcancel with context [stream co ?r ?st] =>
      destruct (stream_run co r st) as (res & Hrun); rewrite Hrun in Hcancel
    end.
    destruct res as [e|answer]; run_bot; by apply cancelled_in_snapshots in Hcancel.
Qed.

End chatbot_turn.

(** Three spaces: one empty token, and nothing else. *)
Lemma blank_input_yields_one_empty_token_witness :
  KiteChatbot.turn_of Scenario.bot Scenario.two_tokens "   " []
  = (inr tt, KiteChatbot.mk_state [] [] [KiteChatbot.mk_suspension EmptyString []]).
Proof.
  apply (blank_input_yields_one_empty_token Scenario.bot Scenario.two_tokens "   " []).
  reflexivity.
Defined.

Example greeting_commits_user_turn_first :
  KiteChatbot.yielded (KiteChatbot.turn_of Scenario.bot Scenario.two_tokens "hi" []).2
  = [KiteChatbot.mk_suspension "Hello" [KiteChatbot.mk_turn "user" "hi"];
     KiteChatbot.mk_suspension "!" [KiteChatbot.mk_turn "user" "hi"]].
Proof. reflexivity. Qed.

(** C9, as it is stated, fails: the reply to [hi] streams two tokens; a
    consumer that stops at the first one leaves the user turn in the
    memory, which was empty. *)
Lemma cancelled_greeting_changes_memory :
  ¬ KiteChatbot.cancelled_turn_leaves_memory Scenario.bot Scenario.two_tokens "hi" [].
Proof.
  intros Hclaim. specialize (Hclaim 0%nat).
  unfold KiteChatbot.memory_if_cancelled in Hclaim.
  rewrite greeting_commits_user_turn_first in Hclaim.
  simpl in Hclaim. specialize (Hclaim ltac:(lia)). discriminate.
Qed.

(** A request that is routed and narrated, stopped at its first token:
    the memory is still empty. *)
Lemma cancelled_turn_memory_witness :
  Py.strip "show my holdings" ≠ EmptyString ∧
  KiteChatbot.memory_if_cancelled
    (KiteChatbot.turn_of Scenario.bot Scenario.two_tokens "show my holdings" []) 0
  = Some [] ∧
  ([] : list KiteChatbot.turn) = [].
Proof.
  split; [discriminate|]. split; [reflexivity|].
  destruct (cancelled_turn_memory Scenario.bot Scenario.two_tokens "show my holdings"
              [] 0 [])
    as [_ Hrouted]; [discriminate|reflexivity|].
  destruct (Hrouted Scenario.routed_holdings eq_refl eq_refl) as [Hnarrated _].
  exact (Hnarrated eq_refl eq_refl).
Defined.

(* ===================================================================== *)
(** ** RateLimiter: how long a caller waits, how much the limiter holds   *)
(* ===================================================================== *)

Section rate_limiter_latency.
Import RateLimiter.

Variables (limit window : Z).

#[local] Abbreviation fresh now := (λ req_time : Z, now - req_time < window).

Lemma filter_all {A} (P : A → Prop) `{!∀ x, Decision (P x)} (l : list A) :
  Forall P l → filter P l = l.
Proof.
  induction 1 as [|x l Hx Hall IH]; [done|].
  by rewrite filter_cons_True, IH.
Qed.

(** Under the invariant the window never holds more than [limit] requests. *)
Lemma inv_window_full grants rl now :
  inv limit window grants rl now →
  Z.of_nat (length (in_window rl now)) ≤ limit.
Proof.
  intros Hinv. destruct (inv_pruned limit window _ _ _ Hinv) as [_ Hw Hr _ Hp _].
  simpl in *. pose proof (inv_bound _ _ _ _ _ Hinv (now - window + 1)) as Hb.
  unfold granted_within in Hb.
  set (P := λ g : Z, now - window + 1 ≤ g < now - window + 1 + window) in *.
  rewrite <- (filter_all P (in_window rl now)).
  - rewrite <- (filter_narrow P (fresh now)) in Hb by (unfold P; intros; lia).
    rewrite <- (Hr now) in Hb by lia.
    pose proof (length_filter (fresh now) (in_window rl now)) as Hlen.
    assert (filter (fresh now) (in_window rl now) = in_window rl now) as Hsame.
    { rewrite (in_window_fresh window) by (destruct Hinv; done).
      apply filter_narrow. done. }
    by rewrite Hsame in Hb.
  - assert (Forall (fresh now) (in_window rl now)) as Hfresh.
    { rewrite (in_window_fresh window) by (destruct Hinv; done).
      apply Forall_forall. intros x [Hx _]%list_elem_of_filter. done. }
    eapply Forall_impl.
    + apply Forall_and. split; [exact Hfresh|exact Hp].
    + unfold P. simpl. intros. lia.
Qed.

Lemma acquire_one_wait rl now jit grants :
  1 ≤ limit →
  inv limit window grants rl now →
  ∃ at_time rl' ws,
    acquire rl now jit = (Acquired at_time rl', ws) ∧
    now ≤ at_time ∧
    inv limit window (grants ++ [at_time]) rl' at_time ∧
    (length ws ≤ 1)%nat ∧
    Forall (λ w, 0 < wait_slept w ≤ window) ws ∧
    Z.of_nat (length (requests rl')) ≤ limit.
Proof.
  intros Hlim Hinv.
  pose proof (inv_limit _ _ _ _ _ Hinv) as Hl.
  pose proof (inv_window _ _ _ _ _ Hinv) as Hw.
  pose proof (inv_window_full _ _ _ Hinv) as Hfull.
  pose proof (length_filter (fresh now) (requests rl)) as Hlen.
  rewrite <- (in_window_fresh window) in Hlen by done.
  unfold acquire. cbn [acquire_loop]. unfold acquire_once.
  case_bool_decide as Hroom.
  { eexists _, _, []. split_and!; [done|lia| |simpl; lia|constructor|].
    - apply inv_granted; [done|lia].
    - simpl. rewrite length_app. simpl. lia. }
  pose proof (inv_pruned limit window _ _ _ Hinv) as Hinv'.
  destruct (in_window rl now) as [|first rest] eqn:Hwin; [simpl in Hroom; lia|].
  assert (now - first < window ∧ first ≤ now) as [Hfresh Hpast].
  { split.
    - assert (first ∈ in_window rl now) as Hin by (rewrite Hwin; left).
      rewrite (in_window_fresh window) in Hin by done.
      by apply list_elem_of_filter in Hin as [? _].
    - pose proof (inv_past _ _ _ _ _ Hinv') as Hp. simpl in Hp.
      by apply Forall_cons in Hp as [? _]. }
  set (s := time_window rl - (now - first)).
  set (now' := after_sleep now s (hd 0%N jit)).
  assert (first + window ≤ now') as Hnow'.
  { unfold now', after_sleep, s. rewrite Hw. case_bool_decide; lia. }
  assert (inv limit window grants (with_requests rl (first :: rest)) now') as Hinv''.
  { apply inv_later with now; [lia|done]. }
  assert (in_window (with_requests rl (first :: rest)) now'
          = filter (fresh now') rest) as Hnext.
  { rewrite (in_window_fresh window) by done. simpl. by rewrite filter_cons_False by lia. }
  pose proof (length_filter (fresh now') rest) as Hshort.
  simpl in Hlen, Hfull.
  destruct (length (requests rl)) as [|fuel] eqn:Hfuel; [lia|].
  cbn [acquire_loop]. unfold acquire_once. rewrite Hnext.
  rewrite bool_decide_eq_true_2 by (simpl; lia).
  eexists _, _, [_]. split_and!; [done|lia| |simpl; lia| |].
  - rewrite <- Hnext. apply inv_granted; [done|]. rewrite Hnext. lia.
  - constructor; [|constructor]. simpl. unfold s. rewrite Hw. lia.
  - simpl. rewrite length_app. simpl. lia.
Qed.

Lemma run_one_wait calls : ∀ rl now grants,
  1 ≤ limit →
  inv limit window grants rl now →
  Forall (λ s, (length (waits s) ≤ 1)%nat ∧
               Forall (λ w, 0 < wait_slept w ≤ window) (waits s) ∧
               match result s with
               | Acquired _ rl' => Z.of_nat (length (requests rl')) ≤ limit
               | _ => False
               end)
         (run rl now calls).
Proof.
  induction calls as [|c calls IH]; intros rl now grants Hlim Hinv; [constructor|].
  simpl.
  destruct (acquire_one_wait rl (now + Z.of_N (gap c)) (jitter c) grants)
    as (at_time & rl' & ws & Heq & Hle & Hinv' & Hone & Hws & Hsize); [done| |].
  { apply inv_later with now; [lia|done]. }
  rewrite Heq. simpl. constructor; [done|].
  by apply (IH rl' at_time (grants ++ [at_time])).
Qed.

End rate_limiter_latency.



(** X2.  The limiter never holds more than [max_requests] time stamps
    when an [acquire] returns: its list does not grow with the number of
    calls. *)
Theorem requests_stay_bounded (limit window start : Z)
    (calls : list RateLimiter.arrival) :
  1 ≤ limit →
  Forall (λ s, match RateLimiter.result s with
               | RateLimiter.Acquired _ rl =>
                   Z.of_nat (length (RateLimiter.requests rl)) ≤ limit
               | _ => False
               end)
         (RateLimiter.run (RateLimiter.init limit window) start calls).
Proof.
  intros Hlim.
  eapply Forall_impl.
  - apply (run_one_wait limit window calls _ start []); [done|].
    apply inv_init. lia.
  - simpl. intros s (_ & _ & ?). done.
Qed.

Lemma requests_stay_bounded_witness :
  Forall (λ s, match RateLimiter.result s with
               | RateLimiter.Acquired _ rl =>
                   Z.of_nat (length (RateLimiter.requests rl)) ≤ 2
               | _ => False
               end)
         (RateLimiter.run (RateLimiter.init 2 1000) 0
            [RateLimiter.mk_arrival 0 []; RateLimiter.mk_arrival 1 [];
             RateLimiter.mk_arrival 1 []; RateLimiter.mk_arrival 2000 []]).
Proof.
  apply (requests_stay_bounded 2 1000 0). lia.
Defined.

(* ===================================================================== *)
(** ** KiteMCPClient: application errors, the session on disk, the probe  *)
(* ===================================================================== *)

Section client_more.
Import Py Eff KiteMCPClient.

Ltac run_client :=
  repeat (progress (unfold restore_sessionM, client_aenter, log, advance, bind, ret,
                      raise, try_except, get_client, get_world, put_client, put_world;
                    cbn [fst snd])).

Lemma call_from_other_error gw tool_name args attempts attempt last c w e :
  1 ≤ RateLimiter.max_requests (rate_limiter c) →
  has_client c = true ∨ on_connect gw (connects w) = None →
  on_call_tool gw (tool_calls w) tool_name args = inl e →
  classify e = OtherError →
  ∃ c' w' evs,
    call_from gw tool_name args (S attempts) attempt last (c, w) = (inl e, (c', w')) ∧
    trace w' = trace w ++ evs ∧
    count is_call_tool evs = 1%nat ∧
    backoffs evs = [] ∧
    count is_force_reconnect evs = 0%nat.
Proof.
  intros Hlim Hconn Hfail Hkind. rewrite call_from_step.
  destruct (attempt_run gw tool_name args c w Hlim Hconn)
    as (c1 & w1 & evs1 & Heq & _ & _ & Htr & _ & Hb & _ & Hn & Hf).
  rewrite Heq, Hfail. run_client. rewrite Hkind.
  exists c1, w1, (evs1 ++ [CallTool tool_name args]).
  split_and!; [done|done| | |].
  - rewrite count_app, Hn. reflexivity.
  - rewrite backoffs_app, Hb. reflexivity.
  - rewrite count_app, Hf. reflexivity.
Qed.

(** X3.  An error of the gateway that is neither a rate-limit signal nor
    a transport failure is not retried: [call] invokes the tool once, does
    not back off, does not reconnect, and raises the error as it is. *)
Theorem call_does_not_retry_application_errors (gw : gateway) (tool_name : string)
    (args : kwargs) (c : t) (w : world) (e : exn) :
  1 ≤ RateLimiter.max_requests (rate_limiter c) →
  has_client c = true ∨ on_connect gw (connects w) = None →
  0 ≤ max_retries c →
  on_call_tool gw (tool_calls w) tool_name args = inl e →
  classify e = OtherError →
  ∃ c' w' evs,
    call gw tool_name args (c, w) = (inl e, (c', w')) ∧
    trace w' = trace w ++ evs ∧
    count is_call_tool evs = 1%nat ∧
    backoffs evs = [] ∧
    count is_force_reconnect evs = 0%nat.
Proof.
  intros Hlim Hconn Hmr Hfail Hkind. unfold call. run_client.
  destruct (Z.to_nat (max_retries c + 1)) as [|attempts] eqn:Hn; [lia|].
  by apply call_from_other_error.
Qed.

(** X4.  What [save_session] writes, [restore_session] reads back: every
    header of the saving client is a header of the restoring client, with
    its value, and the answer is [True]; a client that restores what it
    saved itself is unchanged. *)
Theorem saved_session_is_restored (c c' : t) (d : option file) :
  headers c ≠ ∅ →
  restore_session c' (save_session c d)
  = (set_headers c' (headers c ∪ headers c'), true) ∧
  map_Forall (λ key v, headers (restore_session c' (save_session c d)).1 !! key = Some v)
             (headers c) ∧
  restore_session c (save_session c d) = (c, true).
Proof.
  intros Hsome.
  assert (∀ c0, restore_session c0 (save_session c d)
                = (set_headers c0 (headers c ∪ headers c0), true)) as Hrestore.
  { intros c0. unfold save_session. rewrite decide_False by done.
    unfold restore_session. by rewrite decide_False. }
  rewrite !Hrestore. split_and!; [done| |].
  - intros key v Hkey. simpl. by apply lookup_union_Some_l.
  - destruct c. unfold set_headers. simpl. by rewrite (idemp_L (∪)).
Qed.

(** An empty header map is not written: the file stays as it was. *)
Lemma save_session_empty c d : headers c = ∅ → save_session c d = d.
Proof. intros Hempty. unfold save_session. by rewrite decide_True. Qed.

Lemma close_run c w :
  close (c, w)
  = (inr tt,
     (set_connection c false false,
      mk_world (clock w) (save_session c (disk w))
               (trace w ++ (if has_client c then [Closed] else []))
               (connects w) (tool_calls w))).
Proof.
  unfold close. run_client. destruct (has_client c); run_client; [done|].
  by rewrite app_nil_r.
Qed.

(** X5.  [close] and then [connect]: the client comes back with the
    headers it had, through the session file, and with a new connection. *)
Theorem close_then_connect_keeps_session (gw : gateway) (c : t) (w : world) :
  headers c ≠ ∅ →
  on_connect gw (connects w) = None →
  (close;; connect gw) (c, w)
  = (inr tt,
     (set_connection c true true,
      mk_world (clock w) (Some (Json (headers c)))
               (trace w ++ (if has_client c then [Closed] else []) ++ [Connected])
               (S (connects w)) (tool_calls w))).
Proof.
  intros Hsome Hopen. unfold bind at 1. rewrite close_run.
  unfold connect. run_client. simpl.
  unfold save_session. rewrite decide_False by done.
  unfold restore_session. rewrite decide_False by done. run_client. simpl.
  rewrite Hopen. destruct c. unfold set_connection, set_headers. simpl.
  by rewrite (idemp_L (∪)), <- app_assoc.
Qed.

(** X6.  [validate_session] never raises.  When the probe [get_profile]
    is answered, the session is valid unless the text of the answer holds
    [please log in], in whatever case; when the probe fails with an
    application error, the session is not valid. *)
Theorem validate_session_decides (gw : gateway) (c : t) (w : world) :
  1 ≤ RateLimiter.max_requests (rate_limiter c) →
  has_client c = true ∨ on_connect gw (connects w) = None →
  0 ≤ max_retries c →
  (∃ valid s', validate_session gw (c, w) = (inr valid, s')) ∧
  match on_call_tool gw (tool_calls w) "get_profile" ∅ with
  | inr r =>
      ∃ s', validate_session gw (c, w)
            = (inr (negb (contains "please log in"
                            (lower (_collect_text_chunks (Some r))))), s')
  | inl e =>
      classify e = OtherError →
      ∃ s', validate_session gw (c, w) = (inr false, s')
  end.
Proof.
  intros Hlim Hconn Hmr. split.
  - unfold validate_session, try_except, bind at 1.
    destruct (call gw "get_profile" ∅ (c, w)) as [[e|res] s']; [by eexists _, _|].
    destruct (contains _ _); by eexists _, _.
  - destruct (on_call_tool gw (tool_calls w) "get_profile" ∅) as [e|r] eqn:Hprobe.
    + intros Hkind.
      destruct (Z.to_nat (max_retries c + 1)) as [|attempts] eqn:Hn; [lia|].
      destruct (call_from_other_error gw "get_profile" ∅ attempts 0 None c w e)
        as (c' & w' & evs & Hrun & _); try done.
      unfold validate_session, try_except, bind at 1, call, bind at 1, get_client.
      cbn [fst snd]. rewrite Hn, Hrun. by eexists.
    + destruct (call_from_rate_limited gw "get_profile" ∅ r
                  (Z.to_nat (max_retries c + 1)) 0 0 None c w)
        as (c' & w' & evs & Hrun & _); try done; try lia.
      { intros _. by rewrite Nat.add_0_r. }
      rewrite bool_decide_eq_true_2 in Hrun by lia.
      unfold validate_session, try_except, bind at 1, call, bind at 1, get_client.
      cbn [fst snd]. rewrite Hrun.
      destruct (contains _ _); by eexists.
Qed.

End client_more.

(* ===================================================================== *)
(** ** GroqBalancer: round robin                                          *)
(* ===================================================================== *)

Section balancer.
Import Py Eff GroqBalancer.

Lemma get_next_key_run keys i key :
  keys !! i = Some key →
  get_next_key (mk keys i) = (inr (Some key), mk keys ((i + 1) mod length keys)).
Proof.
  intros Hkey. unfold get_next_key, bind, get, put, ret. simpl.
  destruct keys as [|k keys]; [done|]. by rewrite Hkey.
Qed.

Lemma next_keys_run keys n : ∀ i,
  (i < length keys)%nat →
  next_keys n (mk keys i)
  = ((λ k, inr (keys !! ((i + k) mod length keys)%nat)) <$> seq 0 n,
     mk keys ((i + n) mod length keys)).
Proof.
  induction n as [|n IH]; intros i Hi.
  - simpl. by rewrite Nat.add_0_r, Nat.mod_small.
  - destruct (lookup_lt_is_Some_2 keys i Hi) as [key Hkey].
    cbn [next_keys]. rewrite (get_next_key_run _ _ _ Hkey).
    rewrite IH by (apply Nat.mod_upper_bound; lia).
    f_equal.
    + cbn [seq fmap list_fmap]. f_equal.
      * by rewrite Nat.add_0_r, Nat.mod_small, Hkey.
      * rewrite <- fmap_S_seq, <- list_fmap_compose.
        apply list_fmap_ext. intros _ k _. simpl. do 2 f_equal.
        rewrite Nat.Div0.add_mod_idemp_l. f_equal. lia.
    + f_equal. rewrite Nat.Div0.add_mod_idemp_l. f_equal. lia.
Qed.

(** X7.  The balancer hands out the keys in turn: call number [k] answers
    with the key at [k mod key_count] and no call raises; after
    [key_count] calls every key has been handed out once, in the order of
    the list, and the balancer is where it started. *)
Theorem keys_are_handed_out_in_turn (keys : list string) (n : nat) :
  keys ≠ [] →
  next_keys n (init keys)
  = ((λ k, inr (keys !! (k mod length keys)%nat)) <$> seq 0 n,
     mk keys (n mod length keys)) ∧
  next_keys (length keys) (init keys) = (inr ∘ Some <$> keys, init keys).
Proof.
  intros Hkeys.
  assert (0 < length keys)%nat as Hlen by (destruct keys; [done|simpl; lia]).
  split; [exact (next_keys_run keys n 0 Hlen)|].
  unfold init. rewrite (next_keys_run keys (length keys) 0 Hlen). simpl.
  rewrite Nat.Div0.mod_same. f_equal.
  apply list_eq. intros k. rewrite !list_lookup_fmap.
  destruct (decide (k < length keys)%nat) as [Hk|Hk].
  - rewrite lookup_seq_lt by done. simpl. rewrite Nat.mod_small by done.
    destruct (lookup_lt_is_Some_2 keys k Hk) as [key ->]. done.
  - rewrite lookup_seq_ge by lia. by rewrite lookup_ge_None_2 by lia.
Qed.

Lemma keys_are_handed_out_in_turn_witness :
  (next_keys 5 (init ["gsk_a"; "gsk_b"; "gsk_c"])).1
  = [inr (Some "gsk_a"); inr (Some "gsk_b"); inr (Some "gsk_c");
     inr (Some "gsk_a"); inr (Some "gsk_b")].
Proof.
  destruct (keys_are_handed_out_in_turn ["gsk_a"; "gsk_b"; "gsk_c"] 5) as [Hrun _];
    [discriminate|].
  rewrite Hrun. reflexivity.
Defined.

(** Without keys the answer is [None], and the balancer does not move. *)
Example no_key : get_next_key (init []) = (inr None, init []).
Proof. reflexivity. Qed.

End balancer.

(* ===================================================================== *)
(** ** MasterAgent: the catalog, refusals, whole plans                    *)
(* ===================================================================== *)

Section master_more.
Import Py Eff MasterAgent.

#[local] Instance item_le_total : Total item_le.
Proof.
  intros x y. unfold item_le.
  destruct (decide (item_agent x = item_agent y)) as [Heq|Hne].
  - destruct (total String.le (item_tool x) (item_tool y)); [left|right]; right; done.
  - destruct (total String.le (item_agent x) (item_agent y)); [left|right]; left; done.
Qed.

#[local] Instance item_le_trans : Transitive item_le.
Proof.
  intros x y z [[Hxy Hle1]|[Hxy Hle1]] [[Hyz Hle2]|[Hyz Hle2]]; unfold item_le.
  - left. split; [|by etrans]. intros Hxz. rewrite Hxz in Hle1.
    apply Hyz. by apply (anti_symm String.le).
  - left. rewrite <- Hyz. done.
  - left. rewrite Hxy. done.
  - right. split; [congruence|by etrans].
Qed.

(** X8.  The catalog lists the tools of the agents and nothing else, and
    it is sorted by (agent, tool): an entry never comes after an entry
    that is greater. *)
Theorem catalog_is_sorted_and_complete (registry : gmap string (list tool_spec)) :
  StronglySorted item_le (_build_catalog registry) ∧
  ∀ it, it ∈ _build_catalog registry ↔
        ∃ tools t, registry !! item_agent it = Some tools ∧ t ∈ tools ∧
                   it = mk_item (item_agent it) (name t) (description t) (parameters t).
Proof.
  split; [apply StronglySorted_merge_sort; apply _|].
  intros it. unfold _build_catalog. rewrite merge_sort_Permutation.
  rewrite list_elem_of_bind. split.
  - intros ([agent_name tools] & Hit & Hagent).
    apply elem_of_map_to_list in Hagent.
    apply list_elem_of_fmap in Hit as (t & -> & Ht). simpl.
    by exists tools, t.
  - intros (tools & t & Hagent & Ht & Hit).
    exists (item_agent it, tools). split.
    + apply list_elem_of_fmap. by exists t.
    + by apply elem_of_map_to_list.
Qed.

(** X9.  [execute] runs no agent when the dispatcher is not initialized,
    when the agent is not registered, or when the agent does not declare
    the tool: it answers with an error and the history of runs is as it
    was. *)
Theorem execute_refuses_what_it_does_not_know (m : t) (co : collaborators)
    (agent_name tool_name : string) (kw : kwargs) (history : list invocation) :
  initialized m = false
  ∨ agents m !! agent_name = None
  ∨ (∃ tools, agents m !! agent_name = Some tools ∧ _has_tool tools tool_name = false) →
  ∃ msg, execute m co agent_name tool_name kw history = (inr (error msg), history).
Proof.
  unfold execute. intros [Hinit|[Hagent|(tools & Hagent & Htool)]].
  - rewrite Hinit. by eexists.
  - destruct (initialized m); simpl; [|by eexists]. rewrite Hagent. by eexists.
  - destruct (initialized m); simpl; [|by eexists].
    rewrite Hagent, Htool. by eexists.
Qed.

Lemma prune_subseteq (params : gmap string string) (args : kwargs) :
  prune params args ⊆ args.
Proof.
  apply map_subseteq_spec. intros key v. rewrite prune_lookup.
  by destruct (decide (key ∈ dom params)).
Qed.

Lemma prune_dom (params : gmap string string) (args : kwargs) :
  dom (prune params args) = dom args ∩ dom params.
Proof.
  apply set_eq. intros key. rewrite elem_of_intersection, !elem_of_dom, prune_lookup.
  destruct (decide (key ∈ dom params)) as [Hin|Hout].
  - apply elem_of_dom in Hin. tauto.
  - rewrite elem_of_dom in Hout. split; [by intros [? ?]|tauto].
Qed.

Lemma prune_idempotent (params : gmap string string) (args : kwargs) :
  prune params (prune params args) = prune params args.
Proof.
  apply map_eq. intros key. rewrite !prune_lookup.
  by destruct (decide (key ∈ dom params)).
Qed.

(** X10.  A selection that [_is_valid_selection] accepts keeps its agent
    and its tool; its arguments are the given ones without the keys the
    tool does not declare; accepting it again changes nothing.  A
    selection that is turned down is left as it is. *)
Theorem validation_only_removes_undeclared (catalog : list item) (sel sel' : step)
    (valid : bool) :
  _is_valid_selection catalog sel = (valid, sel') →
  agent sel' = agent sel ∧ tool sel' = tool sel ∧
  arguments sel' ⊆ arguments sel ∧
  _is_valid_selection catalog sel' = (valid, sel') ∧
  if valid
  then ∃ it, find_item catalog (agent sel) (tool sel) = Some it ∧
             dom (arguments sel') = dom (arguments sel) ∩ dom (item_parameters it)
  else sel' = sel.
Proof.
  unfold _is_valid_selection. destruct sel as [a t kw]. simpl.
  destruct (negb _ || negb _) eqn:Hnames.
  { intros [= <- <-]. simpl. rewrite Hnames. done. }
  destruct (find_item catalog a t) as [it|] eqn:Hfind.
  - intros [= <- <-]. simpl. rewrite Hnames, Hfind, prune_idempotent.
    split_and!; [done|done|apply prune_subseteq|done|].
    exists it. split; [done|apply prune_dom].
  - intros [= <- <-]. simpl. rewrite Hnames, Hfind. done.
Qed.

(** X11.  A single step that names a pair that is not in the catalog, in
    a selection without a plan, is not executed: [route_query] answers that
    it could not map the query, and no agent has run.  So it is when the
    router selects nothing. *)
Theorem unknown_single_step_is_not_executed (m : t) (co : collaborators)
    (user_query : string) (selection : option selection) (history : list invocation) :
  router_enabled m = true →
  route co user_query = inr selection →
  match selection with
  | None => True
  | Some sel =>
      sel_plan sel = None ∧
      ¬ in_catalog (catalog m) (default EmptyString (sel_agent sel))
                   (default EmptyString (sel_tool sel))
  end →
  route_query m co user_query history
  = (inr (mk_routed (Some "error") (Some no_mapping) None), history).
Proof.
  intros Hrouter Hroute Hsel. unfold route_query. rewrite Hrouter, Hroute. simpl.
  destruct selection as [sel|]; [|done].
  destruct Hsel as [Hplan Hunknown].
  assert (route_plan m co (Some sel) history
          = (inr (mk_routed (Some "error") (Some no_mapping) None), history)) as Hnone.
  { unfold route_plan. simpl. by rewrite Hplan. }
  destruct (truthy (sel_agent sel) && truthy (sel_tool sel)); [|exact Hnone].
  rewrite valid_selection_unknown by done. exact Hnone.
Qed.

Lemma run_plan_all plan : ∀ m co steps results history,
  initialized m = true →
  catalog m = _build_catalog (agents m) →
  Forall (λ s, ps_agent s ≠ EmptyString ∧ ps_tool s ≠ EmptyString ∧
               in_catalog (catalog m) (ps_agent s) (ps_tool s)) plan →
  ∃ results',
    length results' = length plan ∧
    run_plan m co plan steps results history
    = (inr (mk_routed (Some "success") None
              (Some (steps ++ (validated (catalog m) <$> plan), results ++ results'))),
       history ++ runs_of (validated (catalog m) <$> plan)).
Proof.
  induction plan as [|s plan IH]; intros m co steps results history Hinit Hcat Hknown.
  - exists []. simpl. by rewrite !app_nil_r.
  - apply Forall_cons in Hknown as [(Ha & Ht & Hin) Hknown].
    destruct (valid_selection_known _ _ _ (or_empty (ps_arguments s)) Ha Ht Hin)
      as (it & Hfind & Hvalid).
    destruct (find_item_spec _ _ _ _ Hfind) as (Hit & Hia & Hitool).
    rewrite Hcat in Hit.
    destruct (catalog_names_tools _ _ Hit) as (tools & Hagent & Htool).
    rewrite Hia in Hagent. rewrite Hitool in Htool.
    cbn [run_plan]. rewrite Hvalid. cbn [negb agent tool arguments].
    unfold bind.
    rewrite (execute_known m co _ _ _ history tools) by done.
    edestruct (IH m co) as (results' & Hlen & ->); [done..|].
    assert (validated (catalog m) s
            = mk_step (ps_agent s) (ps_tool s)
                      (prune (item_parameters it) (or_empty (ps_arguments s)))) as Hv.
    { unfold validated, step_of. by rewrite Hvalid. }
    eexists (_ :: results'). split; [simpl; by rewrite Hlen|].
    cbn [fmap list_fmap runs_of]. rewrite Hv. rewrite <- !app_assoc.
    simpl. reflexivity.
Qed.

(** X12.  A plan whose steps are all in the catalog is executed whole, in
    the order of the plan, each step with its pruned arguments, and there
    is one result per step; the answer has status [success] whatever the
    steps answered, also for the empty plan. *)
Theorem known_plan_runs_in_order (m : t) (co : collaborators) (user_query : string)
    (plan : list plan_step) (history : list invocation) :
  initialized m = true →
  router_enabled m = true →
  catalog m = _build_catalog (agents m) →
  route co user_query = inr (Some (mk_selection None None None (Some plan))) →
  Forall (λ s, ps_agent s ≠ EmptyString ∧ ps_tool s ≠ EmptyString ∧
               in_catalog (catalog m) (ps_agent s) (ps_tool s)) plan →
  ∃ results,
    length results = length plan ∧
    route_query m co user_query history
    = (inr (mk_routed (Some "success") None
              (Some (validated (catalog m) <$> plan, results))),
       history ++ runs_of (validated (catalog m) <$> plan)).
Proof.
  intros Hinit Hrouter Hcat Hroute Hknown.
  unfold route_query. rewrite Hrouter, Hroute. simpl. unfold route_plan. simpl.
  by apply (run_plan_all plan m co [] [] history).
Qed.

End master_more.

(* ===================================================================== *)
(** ** KiteChatbot: what a turn leaves behind                             *)
(* ===================================================================== *)

Section chatbot_more.
Import Py Eff KiteChatbot.

Ltac run_bot :=
  repeat (progress (unfold called, yield, remember, get_memory, bind, ret, raise, get, put;
                    cbn [fst snd memory calls yielded])).

Lemma stream_tokens_answer tokens : ∀ full_answer st,
  stream_tokens tokens full_answer st
  = (inr (foldl String.append full_answer tokens),
     mk_state (memory st) (calls st) (yielded st ++ snapshots (memory st) tokens)).
Proof.
  induction tokens as [|tok tokens IH]; intros full_answer st.
  - simpl. run_bot. rewrite app_nil_r. by destruct st.
  - simpl. run_bot. rewrite IH. simpl. by rewrite <- app_assoc.
Qed.

(** A stream: its tokens are yielded on the memory it starts on; it ends
    with the answer or with the failure of the LLM. *)
Lemma stream_outcome co r st :
  stream co r st
  = (match (_stream_llm co r).2 with
     | Some e => inl e
     | None => inr (foldl String.append EmptyString (_stream_llm co r).1)
     end,
     mk_state (memory st) (calls st ++ [StreamLLM r])
              (yielded st ++ snapshots (memory st) (_stream_llm co r).1)).
Proof.
  unfold stream. run_bot. destruct (_stream_llm co r) as [tokens failure].
  run_bot. rewrite stream_tokens_answer. simpl. by destruct failure.
Qed.

Lemma snapshots_tokens mem tokens : token <$> snapshots mem tokens = tokens.
Proof.
  unfold snapshots.
  induction tokens as [|tok tokens IH]; [done|]. simpl. f_equal. exact IH.
Qed.

Ltac stream_step :=
  match goal with
  | |- context [stream ?co ?r ?st] => rewrite (stream_outcome co r st)
  end;
  cbn [fst snd memory calls yielded].

(** X14.  What [chat] returns is what the memory ends with: after a turn
    that ends without an exception, on an input that is not blank, the
    memory is the one before the turn with the user turn and then the
    assistant turn whose content is the text returned, each added by
    [_remember]. *)
Theorem completed_turn_is_remembered (bot : t) (co : collaborators)
    (user_input : string) (mem : list turn) (answer : string) (st : state) :
  strip user_input ≠ EmptyString →
  chat bot co user_input mem = (inr answer, st) →
  memory st = _remember (_remember mem user user_input) assistant answer.
Proof.
  intros Hinput. unfold chat, turn_of, chat_stream.
  destruct (strip user_input) as [|c rest] eqn:Hstrip; [done|].
  run_bot. destruct (needs_routing (_classify_query user_input)); simpl.
  - match goal with |- context [_rewrite_query co user_input ?st0] =>
      destruct (rewrite_run co user_input st0) as (cs & ->)
    end.
    run_bot.
    destruct (route_query co _) as [e|routed]; run_bot.
    { intros [= <- <-]. done. }
    case_bool_decide; run_bot.
    { intros [= <- <-]. done. }
    case_bool_decide; [destruct (narrate bot)|]; run_bot.
    + stream_step. destruct (_stream_llm co _).2; run_bot; [done|].
      intros [= <- <-]. simpl. by rewrite snapshots_tokens.
    + intros [= <- <-]. done.
    + stream_step. destruct (_stream_llm co _).2; run_bot; [done|].
      intros [= <- <-]. simpl. by rewrite snapshots_tokens.
  - stream_step. destruct (_stream_llm co _).2; run_bot; [done|].
    intros [= <- <-]. simpl. by rewrite snapshots_tokens.
Qed.

(** X15.  [chat_stream] raises only what the LLM stream raises, and then
    no assistant turn is committed: the memory is the one before the turn,
    or that one with the user turn. *)
Theorem turn_raises_only_stream_failures (bot : t) (co : collaborators)
    (user_input : string) (mem : list turn) (e : exn) (st : state) :
  turn_of bot co user_input mem = (inl e, st) →
  (∃ r, (_stream_llm co r).2 = Some e) ∧
  (memory st = mem ∨ memory st = _remember mem user user_input).
Proof.
  unfold turn_of, chat_stream.
  destruct (strip user_input) as [|c rest] eqn:Hstrip; [done|].
  run_bot. destruct (needs_routing (_classify_query user_input)); simpl.
  - match goal with |- context [_rewrite_query co user_input ?st0] =>
      destruct (rewrite_run co user_input st0) as (cs & ->)
    end.
    run_bot.
    destruct (route_query co _) as [e'|routed]; run_bot; [done|].
    case_bool_decide; run_bot; [done|].
    case_bool_decide; [destruct (narrate bot)|]; run_bot; try done.
    + stream_step. destruct (_stream_llm co _).2 as [e'|] eqn:Hfail; run_bot; [|done].
      intros [= <- <-]. simpl. eauto.
    + stream_step. destruct (_stream_llm co _).2 as [e'|] eqn:Hfail; run_bot; [|done].
      intros [= <- <-]. simpl. eauto.
  - stream_step. destruct (_stream_llm co _).2 as [e'|] eqn:Hfail; run_bot; [|done].
    intros [= <- <-]. simpl. eauto.
Qed.

(** X16.  A message that is an acknowledgment or out of scope is answered
    without the rewrite LLM and without the dispatcher: the calls of the
    turn are the classification and one stream, asked with the last four
    turns of the memory, the user turn among them. *)
Theorem unrouted_message_skips_dispatcher (bot : t) (co : collaborators)
    (user_input : string) (mem : list turn) :
  strip user_input ≠ EmptyString →
  needs_routing (_classify_query user_input) = false →
  calls (turn_of bot co user_input mem).2
  = [Classified user_input;
     StreamLLM (Reply (_classify_query user_input)
                      (last_turns 4 (_remember mem user user_input)))].
Proof.
  intros Hinput Hclass. unfold turn_of, chat_stream.
  destruct (strip user_input) as [|c rest] eqn:Hstrip; [done|].
  run_bot. rewrite Hclass. simpl. stream_step.
  destruct (_stream_llm co _).2; run_bot; done.
Qed.

(** X17.  An exception of the dispatcher does not leave [chat_stream]:
    the turn yields one message that quotes it, and both turns are
    remembered. *)
Theorem dispatcher_exception_is_reported (bot : t) (co : collaborators)
    (user_input : string) (mem : list turn) (e : exn) :
  strip user_input ≠ EmptyString →
  needs_routing (_classify_query user_input) = true →
  route_query co (search_query_of co user_input mem) = inl e →
  let error_msg := "I encountered an issue: " +:+ exn_text e +:+ ". Please try again." in
  let remembered := _remember (_remember mem user user_input) assistant error_msg in
  ∃ cs, turn_of bot co user_input mem
        = (inr tt, mk_state remembered cs [mk_suspension error_msg remembered]).
Proof.
  intros Hinput Hclass Hroute. unfold turn_of, chat_stream.
  destruct (strip user_input) as [|c rest] eqn:Hstrip; [done|].
  run_bot. rewrite Hclass. simpl.
  match goal with |- context [_rewrite_query co user_input ?st0] =>
    destruct (rewrite_run co user_input st0) as (cs & ->)
  end.
  run_bot. rewrite Hroute. run_bot. by eexists.
Qed.

(** X18.  When the dispatcher answers with an error whose message holds
    [please log in], in whatever case, the user is told to connect, and
    that is what is remembered; the message of the dispatcher is not
    shown. *)
Theorem login_error_is_rephrased (bot : t) (co : collaborators)
    (user_input : string) (mem : list turn) (routed : MasterAgent.routed) (msg : string) :
  strip user_input ≠ EmptyString →
  needs_routing (_classify_query user_input) = true →
  route_query co (search_query_of co user_input mem) = inr routed →
  MasterAgent.routed_status routed = Some "error" →
  MasterAgent.routed_message routed = Some msg →
  contains "please log in" (lower msg) = true →
  let shown := "Your Zerodha Kite session is not active. Please click **Connect** in the sidebar." in
  let remembered := _remember (_remember mem user user_input) assistant shown in
  ∃ cs, turn_of bot co user_input mem
        = (inr tt, mk_state remembered cs [mk_suspension shown remembered]).
Proof.
  intros Hinput Hclass Hroute Hstatus Hmsg Hlogin. unfold turn_of, chat_stream.
  destruct (strip user_input) as [|c rest] eqn:Hstrip; [done|].
  run_bot. rewrite Hclass. simpl.
  match goal with |- context [_rewrite_query co user_input ?st0] =>
    destruct (rewrite_run co user_input st0) as (cs & ->)
  end.
  run_bot. rewrite Hroute. rewrite bool_decide_eq_true_2 by done.
  rewrite Hmsg. destruct msg as [|c0 msg]; [done|]. rewrite Hlogin.
  run_bot. by eexists.
Qed.

End chatbot_more.

(* ===================================================================== *)
(** ** Edges: bounds that do not bound, texts that are cut                *)
(* ===================================================================== *)

Section edges.
Import Py Eff KiteChatbot.

(** X19.  A bound of zero or less does not bound the memory: with
    [max_turns = 0] the memory is kept whole ([memory[-0:]] is the whole
    list), and with [max_turns = -n] only the [n] oldest turns are
    dropped. *)
Theorem nonpositive_bound_keeps_memory (mem : list turn) (max_turns : Z) :
  max_turns ≤ 0 →
  _maybe_compress_memory mem max_turns = drop (Z.to_nat (- max_turns)) mem.
Proof.
  intros Hn. unfold _maybe_compress_memory. case_bool_decide as Hlen.
  - unfold last_turns, slice_from. rewrite bool_decide_eq_false_2 by lia.
    destruct (decide (- max_turns ≤ Z.of_nat (length mem))) as [Hle|Hgt].
    + by rewrite Z.min_l by lia.
    + rewrite Z.min_r by lia. rewrite Nat2Z.id.
      by rewrite drop_all, drop_ge by lia.
  - assert (length mem = 0%nat) as Hnil by lia.
    apply nil_length_inv in Hnil as ->. by rewrite drop_nil.
Qed.

Lemma length_append (s1 s2 : string) :
  String.length (s1 +:+ s2) = (String.length s1 + String.length s2)%nat.
Proof. induction s1 as [|c s1 IH]; [done|]. simpl. by rewrite <- IH. Qed.

Lemma length_substring_0 (m : nat) : ∀ s : string,
  String.length (String.substring 0 m s) = Nat.min m (String.length s).
Proof.
  induction m as [|m IH]; intros s.
  - by destruct s.
  - destruct s as [|c s]; [done|]. simpl. by rewrite IH.
Qed.

Lemma substring_all : ∀ (s : string) (m : nat),
  (String.length s ≤ m)%nat → String.substring 0 m s = s.
Proof.
  induction s as [|c s IH]; intros m Hm.
  - by destruct m.
  - destruct m as [|m]; simpl in *; [lia|]. rewrite IH; [done|lia].
Qed.

(** X20.  For [n >= 3] the text that [_truncate] returns has at most [n]
    characters: the text itself when it fits, and otherwise its first
    [n - 3] characters and three dots, [n] characters in all. *)
Theorem truncate_fits (s : string) (n : Z) :
  3 ≤ n →
  Z.of_nat (String.length (_truncate s n)) ≤ n ∧
  (_truncate s n = s ∧ Z.of_nat (String.length s) ≤ n
   ∨ _truncate s n = String.substring 0 (Z.to_nat (n - 3)) s +:+ "..." ∧
     Z.of_nat (String.length (_truncate s n)) = n ∧
     n < Z.of_nat (String.length s)).
Proof.
  intros Hn. unfold _truncate. case_bool_decide as Hfit.
  - split; [done|]. by left.
  - assert (slice_to (n - 3) s = String.substring 0 (Z.to_nat (n - 3)) s) as ->.
    { unfold slice_to. rewrite bool_decide_eq_false_2 by lia.
      by rewrite Z.min_l by lia. }
    assert (Z.of_nat (String.length (String.substring 0 (Z.to_nat (n - 3)) s +:+ "..."))
            = n) as Hlen.
    { rewrite length_append, length_substring_0. simpl. lia. }
    split; [lia|]. right. split_and!; [done|done|lia].
Qed.

(** Below 3 the bound is not kept: [s[:-1]] and three dots. *)
Example truncate_short_bound : _truncate "abcdef" 2 = "abcde...".
Proof. reflexivity. Qed.

Lemma lower_char_idempotent (c : ascii) : lower_char (lower_char c) = lower_char c.
Proof. by destruct c as [[] [] [] [] [] [] [] []]. Qed.

Lemma lower_idempotent (s : string) : lower (lower s) = lower s.
Proof.
  induction s as [|c s IH]; [done|]. simpl. by rewrite lower_char_idempotent, IH.
Qed.

Lemma is_space_lower (c : ascii) : is_space (lower_char c) = is_space c.
Proof. by destruct c as [[] [] [] [] [] [] [] []]. Qed.

Lemma lower_lstrip (s : string) : lower (lstrip s) = lstrip (lower s).
Proof.
  induction s as [|c s IH]; [done|]. simpl. rewrite is_space_lower.
  by destruct (is_space c).
Qed.

Lemma lower_rstrip (s : string) : lower (rstrip s) = rstrip (lower s).
Proof.
  induction s as [|c s IH]; [done|]. simpl. rewrite <- IH, is_space_lower.
  destruct (rstrip s); simpl; [by destruct (is_space c)|done].
Qed.

Lemma rstrip_idempotent (s : string) : rstrip (rstrip s) = rstrip s.
Proof.
  induction s as [|c s IH]; [done|]. simpl.
  destruct (rstrip s) as [|c' rest] eqn:Hrest.
  - destruct (is_space c) eqn:Hc; [done|]. simpl. by rewrite Hc.
  - simpl in *. by rewrite IH.
Qed.

Lemma lstrip_starts (s : string) :
  match lstrip s with
  | EmptyString => True
  | String c _ => is_space c = false
  end.
Proof.
  induction s as [|c s IH]; [done|]. simpl.
  destruct (is_space c) eqn:Hc; [done|]. simpl. done.
Qed.

Lemma strip_idempotent (s : string) : strip (strip s) = strip s.
Proof.
  unfold strip. pose proof (lstrip_starts s) as Hstart.
  destruct (lstrip s) as [|c rest]; [done|].
  assert (∃ rest', rstrip (String c rest) = String c rest') as [rest' Hr].
  { simpl. destruct (rstrip rest); [rewrite Hstart|]; by eexists. }
  rewrite Hr. simpl lstrip. rewrite Hstart. rewrite <- Hr.
  apply rstrip_idempotent.
Qed.

(** X21.  The class of a message depends neither on the case of its
    letters nor on the white space around it. *)
Theorem classification_ignores_case_and_padding (query : string) :
  _classify_query (lower query) = _classify_query query ∧
  _classify_query (strip query) = _classify_query query.
Proof.
  unfold _classify_query. split.
  - by rewrite lower_idempotent.
  - assert (strip (lower (strip query)) = strip (lower query)) as ->; [|done].
    unfold strip at 2. rewrite lower_rstrip, lower_lstrip.
    apply (strip_idempotent (lower query)).
Qed.

End edges.

Section master_failure.
Import Py Eff MasterAgent.

(** X13.  When the agent of a single valid step raises, [route_query]
    does not raise: its answer has status [error], the text of the
    exception as message, and the step with its error result as data. *)
Theorem single_step_failure_is_reported (m : t) (co : collaborators)
    (user_query : string) (agent_name tool_name : string) (args : option kwargs)
    (plan : option (list plan_step)) (it : item) (history : list invocation) (e : exn) :
  initialized m = true →
  router_enabled m = true →
  catalog m = _build_catalog (agents m) →
  route co user_query
  = inr (Some (mk_selection (Some agent_name) (Some tool_name) args plan)) →
  agent_name ≠ EmptyString →
  tool_name ≠ EmptyString →
  find_item (catalog m) agent_name tool_name = Some it →
  let pruned := prune (item_parameters it) (or_empty args) in
  run co history (mk_invocation agent_name tool_name pruned) = inl e →
  route_query m co user_query history
  = (inr (mk_routed (Some "error") (Some (exn_text e))
            (Some ([mk_step agent_name tool_name pruned], [error (exn_text e)]))),
     history ++ [mk_invocation agent_name tool_name pruned]).
Proof.
  intros Hinit Hrouter Hcat Hroute Ha Ht Hfind pruned Hraise.
  destruct (find_item_spec _ _ _ _ Hfind) as (Hin & Hia & Hit).
  rewrite Hcat in Hin.
  destruct (catalog_names_tools _ _ Hin) as (tools & Hagent & Htool).
  rewrite Hia in Hagent. rewrite Hit in Htool.
  unfold route_query. rewrite Hrouter, Hroute. simpl.
  destruct agent_name as [|a agent_name]; [done|].
  destruct tool_name as [|t tool_name]; [done|]. simpl.
  unfold _is_valid_selection. simpl. rewrite Hfind. simpl.
  unfold bind.
  rewrite (execute_known m co _ _ _ history tools) by done.
  fold pruned. by rewrite Hraise.
Qed.

End master_failure.

(* ===================================================================== *)
(** ** More scenarios                                                     *)
(* ===================================================================== *)

(** The gateway turns the arguments down: one invocation, and the error. *)
Lemma call_does_not_retry_application_errors_witness :
  ∃ c' w',
    KiteMCPClient.call Scenario.rejecting "place_order" ∅ (Scenario.client, Scenario.world)
    = (inl Scenario.invalid_arguments, (c', w')) ∧
    KiteMCPClient.count KiteMCPClient.is_call_tool (KiteMCPClient.trace w') = 1%nat.
Proof.
  destruct (call_does_not_retry_application_errors Scenario.rejecting "place_order" ∅
              Scenario.client Scenario.world Scenario.invalid_arguments)
    as (c' & w' & evs & Hrun & Htrace & Hone & _).
  - simpl. lia.
  - right. reflexivity.
  - simpl. lia.
  - reflexivity.
  - reflexivity.
  - exists c', w'. split; [exact Hrun|]. rewrite Htrace. exact Hone.
Defined.

(** A session saved by a client and restored by a new one. *)
Lemma saved_session_is_restored_witness :
  KiteMCPClient.headers
    (KiteMCPClient.restore_session Scenario.client
       (KiteMCPClient.save_session Scenario.logged_in None)).1
  !! "Cookie" = Some "kite_session=abc".
Proof.
  destruct (saved_session_is_restored Scenario.logged_in Scenario.client None)
    as (_ & Hall & _); [discriminate|].
  apply (Hall "Cookie" "kite_session=abc"). reflexivity.
Defined.

Lemma close_then_connect_keeps_session_witness :
  ∃ w',
    Eff.bind KiteMCPClient.close (λ _, KiteMCPClient.connect Scenario.asking_login)
      (Scenario.logged_in, Scenario.world)
    = (inr tt, (Scenario.logged_in, w')) ∧
    KiteMCPClient.disk w' = Some (KiteMCPClient.Json (KiteMCPClient.headers Scenario.logged_in)).
Proof.
  eexists. split.
  - apply (close_then_connect_keeps_session Scenario.asking_login
             Scenario.logged_in Scenario.world); [discriminate|reflexivity].
  - reflexivity.
Defined.

(** The probe is answered with a request to log in: the session is not
    valid. *)
Lemma validate_session_decides_witness :
  ∃ s', KiteMCPClient.validate_session Scenario.asking_login
          (Scenario.client, Scenario.world) = (inr false, s').
Proof.
  destruct (validate_session_decides Scenario.asking_login Scenario.client Scenario.world)
    as [_ Hprobe].
  - simpl. lia.
  - right. reflexivity.
  - simpl. lia.
  - exact Hprobe.
Defined.

(** No agent [orders] is registered: nothing runs. *)
Lemma execute_refuses_what_it_does_not_know_witness :
  ∃ msg,
    MasterAgent.execute Scenario.master Scenario.failing_agent "orders" "get_orders" ∅ []
    = (inr (MasterAgent.error msg), []).
Proof.
  apply (execute_refuses_what_it_does_not_know Scenario.master Scenario.failing_agent
           "orders" "get_orders" ∅ []).
  right. left. reflexivity.
Defined.

(** [get_margins] declares [segment]: [verbose] goes, [segment] stays, and
    a second validation changes nothing. *)
Lemma validation_only_removes_undeclared_witness :
  let sel := MasterAgent.mk_step "account" "get_margins"
               {[ "segment" := Py.VStr "equity"; "verbose" := Py.VBool true ]} in
  let sel' := MasterAgent.mk_step "account" "get_margins"
                {[ "segment" := Py.VStr "equity" ]} in
  MasterAgent._is_valid_selection (MasterAgent.catalog Scenario.master) sel' = (true, sel').
Proof.
  intros sel sel'.
  destruct (validation_only_removes_undeclared
              (MasterAgent.catalog Scenario.master) sel sel' true)
    as (_ & _ & _ & Hagain & _); [reflexivity|].
  exact Hagain.
Defined.

Lemma unknown_single_step_is_not_executed_witness :
  MasterAgent.route_query Scenario.master Scenario.selects_unknown_tool "sell everything" []
  = (inr (MasterAgent.mk_routed (Some "error") (Some MasterAgent.no_mapping) None), []).
Proof.
  apply (unknown_single_step_is_not_executed
           Scenario.master Scenario.selects_unknown_tool "sell everything"
           (Some (MasterAgent.mk_selection
                    (Some "portfolio") (Some "sell_everything") None None)) []);
    [reflexivity..|].
  split; [reflexivity|]. by apply find_item_none.
Defined.

(** Two known steps and agents that fail: both steps run, and the answer
    says [success]. *)
Lemma known_plan_runs_in_order_witness :
  ∃ results,
    MasterAgent.route_query Scenario.master Scenario.plans_two_steps "margins" []
    = (inr (MasterAgent.mk_routed (Some "success") None
              (Some ([MasterAgent.mk_step "portfolio" "get_holdings" ∅;
                      MasterAgent.mk_step "account" "get_margins"
                                          {[ "segment" := Py.VStr "equity" ]}],
                     results))),
       [MasterAgent.mk_invocation "portfolio" "get_holdings" ∅;
        MasterAgent.mk_invocation "account" "get_margins"
                                  {[ "segment" := Py.VStr "equity" ]}]).
Proof.
  destruct (known_plan_runs_in_order Scenario.master Scenario.plans_two_steps "margins"
              Scenario.two_steps [])
    as (results & _ & Hrun); [reflexivity..| |].
  - repeat constructor; try discriminate; by eapply find_item_in_catalog.
  - exists results. exact Hrun.
Defined.

Lemma single_step_failure_is_reported_witness :
  MasterAgent.route_query Scenario.master Scenario.holdings_fail "show my holdings" []
  = (inr (MasterAgent.mk_routed (Some "error") (Some "Please log in first")
            (Some ([MasterAgent.mk_step "portfolio" "get_holdings" ∅],
                   [MasterAgent.error "Please log in first"]))),
     [MasterAgent.mk_invocation "portfolio" "get_holdings" ∅]).
Proof.
  apply (single_step_failure_is_reported
           Scenario.master Scenario.holdings_fail "show my holdings"
           "portfolio" "get_holdings" None None
           (MasterAgent.mk_item "portfolio" "get_holdings" "Holdings" ∅) []
           Scenario.session_expired);
    solve [reflexivity | discriminate].
Defined.

(** [hi] is answered with [Hello!]: one user turn, one assistant turn. *)
Lemma completed_turn_is_remembered_witness :
  KiteChatbot.memory (KiteChatbot.chat Scenario.bot Scenario.two_tokens "hi" []).2
  = [KiteChatbot.mk_turn "user" "hi"; KiteChatbot.mk_turn "assistant" "Hello!"].
Proof.
  apply (completed_turn_is_remembered Scenario.bot Scenario.two_tokens "hi" [] "Hello!");
    [discriminate|reflexivity].
Defined.

(** The stream of the reply to [hi] breaks: the user turn stays alone. *)
Lemma turn_raises_only_stream_failures_witness :
  KiteChatbot.memory
    (KiteChatbot.turn_of Scenario.bot Scenario.breaks_mid_stream "hi" []).2
  = [KiteChatbot.mk_turn "user" "hi"].
Proof.
  destruct (turn_raises_only_stream_failures
              Scenario.bot Scenario.breaks_mid_stream "hi" [] Scenario.stream_broken
              (KiteChatbot.turn_of Scenario.bot Scenario.breaks_mid_stream "hi" []).2)
    as [_ [Hmem|Hmem]]; [reflexivity|discriminate Hmem|exact Hmem].
Defined.

Lemma unrouted_message_skips_dispatcher_witness :
  KiteChatbot.calls (KiteChatbot.turn_of Scenario.bot Scenario.two_tokens "hi" []).2
  = [KiteChatbot.Classified "hi";
     KiteChatbot.StreamLLM
       (KiteChatbot.Reply KiteChatbot.Acknowledgment [KiteChatbot.mk_turn "user" "hi"])].
Proof.
  apply (unrouted_message_skips_dispatcher Scenario.bot Scenario.two_tokens "hi" []);
    [discriminate|reflexivity].
Defined.

Lemma dispatcher_exception_is_reported_witness :
  KiteChatbot.yielded
    (KiteChatbot.turn_of Scenario.bot Scenario.dispatcher_down "show my holdings" []).2
  = [KiteChatbot.mk_suspension
       "I encountered an issue: Connection error.. Please try again."
       [KiteChatbot.mk_turn "user" "show my holdings";
        KiteChatbot.mk_turn "assistant"
          "I encountered an issue: Connection error.. Please try again."]].
Proof.
  destruct (dispatcher_exception_is_reported
              Scenario.bot Scenario.dispatcher_down "show my holdings" []
              Scenario.stream_broken)
    as (cs & Hrun); [discriminate|reflexivity|reflexivity|].
  rewrite Hrun. reflexivity.
Defined.

Lemma login_error_is_rephrased_witness :
  KiteChatbot.token <$>
    KiteChatbot.yielded
      (KiteChatbot.turn_of Scenario.bot Scenario.needs_login "show my holdings" []).2
  = ["Your Zerodha Kite session is not active. Please click **Connect** in the sidebar."].
Proof.
  destruct (login_error_is_rephrased
              Scenario.bot Scenario.needs_login "show my holdings" []
              Scenario.routed_login "Please log in to Kite first.")
    as (cs & Hrun); [discriminate|reflexivity..|].
  rewrite Hrun. reflexivity.
Defined.

(** With the bound 0, three turns stay three turns. *)
Lemma nonpositive_bound_keeps_memory_witness :
  let mem := [KiteChatbot.mk_turn "user" "a"; KiteChatbot.mk_turn "assistant" "b";
              KiteChatbot.mk_turn "user" "c"] in
  KiteChatbot._maybe_compress_memory mem 0 = mem.
Proof.
  intros mem. apply (nonpositive_bound_keeps_memory mem 0). lia.
Defined.

Lemma truncate_fits_witness :
  Z.of_nat (String.length (KiteChatbot._truncate "portfolio context" 10)) ≤ 10.
Proof.
  destruct (truncate_fits "portfolio context" 10) as [Hfit _]; [lia|].
  exact Hfit.
Defined.

Section rewrite.
Import Py Eff KiteChatbot.

(** X22.  [_rewrite_query] never raises and leaves the memory and the
    tokens alone.  On an empty memory it calls no LLM and returns the
    query; when the LLM raises, or answers with five characters or fewer
    (once stripped of white space and of quotes), the query is returned as
    it was given. *)
Theorem rewrite_falls_back_to_query (co : collaborators) (query : string) (st : state) :
  ∃ cs,
    _rewrite_query co query st
    = (inr (search_query_of co query (memory st)),
       mk_state (memory st) (calls st ++ cs) (yielded st)) ∧
    match memory st with
    | [] => cs = [] ∧ search_query_of co query (memory st) = query
    | _ =>
        match rewrite_llm co (history_of (memory st)) query with
        | inl _ => search_query_of co query (memory st) = query
        | inr completion =>
            (String.length (strip_char quote (strip completion)) ≤ 5)%nat →
            search_query_of co query (memory st) = query
        end
    end.
Proof.
  unfold search_query_of, _rewrite_query.
  unfold get_memory, called, bind, ret, get, put. cbn [fst snd memory calls yielded].
  destruct (memory st) as [|m mem] eqn:Hmem.
  { exists []. simpl. rewrite app_nil_r, <- Hmem. by destruct st. }
  destruct (negb _ && _).
  { exists []. simpl. rewrite app_nil_r, <- Hmem. split; [by destruct st|].
    destruct (rewrite_llm co _ query); done. }
  exists [RewriteLLM (history_of (m :: mem)) query].
  destruct (rewrite_llm co _ query) as [e|completion]; simpl; rewrite ?Hmem; [done|].
  case_bool_decide; simpl; [|done].
  split; [done|]. lia.
Qed.

End rewrite.
